(** * Pickleball: scheduling a round-robin doubles tournament

    A shallow embedding of the notebook [Pickleball.ipynb] (all_pairs,
    make_games, schedule, opponents, opp_difference, indexes, swap and
    pickleball) together with the properties of the schedule pipeline. *)

From stdpp Require Import base numbers option list sets gmap.

Set Default Proof Using "Type".
Set Warnings "-clear-no-such-hyp".
Local Open Scope Z_scope.

(** ** Basic types (cell 1 of the notebook) *)

(** [Player = int] *)
Definition Player : Type := Z.
(** [Pair = tuple]: two players who are partners, [(1, 2)] *)
Definition Pair : Type := Player * Player.
(** [Game = list]: a list of two pairs, [[(1, 2), (3, 4)]].  The two
    components are the positions 0 and 1 of the list. *)
Definition Game : Type := Pair * Pair.
(** [Round = tuple]: a tuple of games;  [Schedule = list]: a list of rounds *)
Definition Round : Type := list Game.
Definition Schedule : Type := list Round.

(** ** Outcomes of running a piece of the program

    A call either returns a value, raises one of the Python exceptions
    that the code can run into, or never returns. *)
Inductive exn := TypeError | ValueError | IndexError.

Inductive res (A : Type) : Type :=
  | Ret (a : A)
  | Raise (e : exn)
  | Diverges.
Global Arguments Ret {A} a.
Global Arguments Raise {A} e.
Global Arguments Diverges {A}.

Global Instance exn_eq_dec : EqDecision exn.
Proof. solve_decision. Defined.
Global Instance res_eq_dec `{EqDecision A} : EqDecision (res A).
Proof. solve_decision. Defined.

Global Instance res_ret : MRet res := λ A a, Ret a.
Global Instance res_bind : MBind res := λ A B f m,
  match m with
  | Ret a => f a
  | Raise e => Raise e
  | Diverges => Diverges
  end.
Global Instance res_fmap : FMap res := λ A B f m,
  match m with
  | Ret a => Ret (f a)
  | Raise e => Raise e
  | Diverges => Diverges
  end.

Definition returns {A} (m : res A) : Prop := ∃ a, m = Ret a.

(** ** All pairs of players *)

(** [range(P)] *)
Definition range (P : Z) : list Player := seqZ 0 P.

(** [itertools.combinations(l, 2)]: the 2-element subsequences of [l], in
    lexicographic order of positions. *)
Fixpoint combinations2 {A} (l : list A) : list (A * A) :=
  match l with
  | [] => []
  | x :: t => map (pair x) t ++ combinations2 t
  end.

(** [def all_pairs(P): return list(combinations(range(P), 2))] *)
Definition all_pairs (P : Z) : list Pair := combinations2 (range P).

(** ** Players of a pair, game, round *)

(** [players(x)]: the set of players in a pair, game or round. *)
Definition players_pair (A : Pair) : gset Player := {[ A.1 ]} ∪ {[ A.2 ]}.
Definition players_game (g : Game) : gset Player :=
  players_pair g.1 ∪ players_pair g.2.
Definition players_round (r : list Game) : gset Player :=
  ⋃ (players_game <$> r).

(** [disjoint(A, B) = not (A & B)] *)
Definition disjoint (A B : gset Player) : bool := bool_decide (A ∩ B = ∅).

(** ** Placing pairs into games *)

(** [len(set(A + B)) == 4] *)
Definition four_players (A B : Pair) : bool :=
  bool_decide (size (list_to_set [A.1; A.2; B.1; B.2] : gset Player) = 4%nat).

(** [[p for p in pairs if p not in game]] with [game = [A, B]] *)
Definition not_in_game (A B : Pair) (pairs : list Pair) : list Pair :=
  filter (λ p, p ∉ [A; B]) pairs.

(** The loop [for B in pairs: ...] of [make_games] over the candidates
    that are still to be tried; [rec] is the recursive call.  Falling off
    the end of the loop returns [None]. *)
Fixpoint try_partners (rec : list Pair → option (list Game))
    (A : Pair) (pairs : list Pair) (cands : list Pair) : option (list Game) :=
  match cands with
  | [] => None
  | B :: cands' =>
      if four_players A B then
        match rec (not_in_game A B pairs) with
        | Some other_games => Some ((A, B) :: other_games)
        | None => try_partners rec A pairs cands'
        end
      else try_partners rec A pairs cands'
  end.

(** The body of [make_games]; the recursion is on a bound [n] of the
    length of [pairs] ([make_games_unfold] below shows that the bound
    never runs out, so that [make_games] satisfies the recursive
    equation of the source). *)
Fixpoint make_games_rec (n : nat) (pairs : list Pair) : option (list Game) :=
  match pairs with
  | [] | [_] => Some []
  | A :: _ =>
      match n with
      | O => None
      | S n' => try_partners (make_games_rec n') A pairs pairs
      end
  end.

Definition make_games (pairs : list Pair) : option (list Game) :=
  make_games_rec (length pairs) pairs.

(** ** Scheduling games onto courts

    [schedule] is written once for any kind of item that stands for a
    game: [val] reads the game an item denotes.  With [val = id] the items
    are the games themselves; in [pickleball] the items are the game
    objects of the list [games], which the schedule shares with it. *)

Section schedule.
Context {A : Type} (val : A → Game).

(** [games.remove(game)]: drops the first item equal to [game];
    [None] stands for the ValueError of a missing item. *)
Fixpoint list_remove (game : Game) (games : list A) : option (list A) :=
  match games with
  | [] => None
  | x :: t =>
      if decide (val x = game) then Some t
      else (x ::.) <$> list_remove game t
  end.

(** The loop [for game in list(games): ...] over the rest [snapshot] of
    the copy; [round] and [games] are the two lists it updates. *)
Fixpoint fill_round (courts : Z) (snapshot : list A)
    (round games : list A) : res (list A * list A) :=
  match snapshot with
  | [] => Ret (round, games)
  | game :: rest =>
      if bool_decide (Z.of_nat (length round) < courts)
         && disjoint (players_round (val <$> round)) (players_game (val game))
      then
        match list_remove (val game) games with
        | Some games' => fill_round courts rest (round ++ [game]) games'
        | None => Raise ValueError
        end
      else fill_round courts rest round games
  end.

(** The loop [while games: ...]; [fuel] bounds the number of rounds
    that are built, and running out of it stands for a loop that does
    not end. *)
Fixpoint schedule_loop (fuel : nat) (courts : Z)
    (games : list A) (sched : list (list A)) : res (list (list A)) :=
  match games with
  | [] => Ret sched
  | _ :: _ =>
      match fuel with
      | O => Diverges
      | S fuel' =>
          '(round, games') ← fill_round courts games [] games;
          schedule_loop fuel' courts games' (sched ++ [round])
      end
  end.

(** [def schedule(games, courts=2)].  A loop that ends builds at most
    [length games] rounds ([schedule_loop_more_fuel],
    [schedule_loop_diverges]). *)
Definition schedule_on (games : list A) (courts : Z) : res (list (list A)) :=
  schedule_loop (length games) courts games [].
End schedule.

Definition schedule (games : list Game) (courts : Z) : res Schedule :=
  schedule_on id games courts.

(** ** [schedule] on a store of list objects

    To say what [schedule] does to the list that it is given, lists are
    objects of a store, read and written by address: [arg] is the address
    of the list that the caller passes, and [games = list(games)] binds
    the local variable to a new list object. *)

Section schedule_store.
Context {A : Type} (val : A → Game).

(** [for game in list(games): ...], with [games] the list object at [l] *)
Fixpoint fill_round_st (courts : Z) (snapshot : list A) (round : list A)
    (l : nat) (h : gmap nat (list A)) : res (list A * gmap nat (list A)) :=
  match snapshot with
  | [] => Ret (round, h)
  | game :: rest =>
      if bool_decide (Z.of_nat (length round) < courts)
         && disjoint (players_round (val <$> round)) (players_game (val game))
      then
        match list_remove val (val game) (h !!! l) with
        | Some games' =>
            fill_round_st courts rest (round ++ [game]) l (<[l := games']> h)
        | None => Raise ValueError
        end
      else fill_round_st courts rest round l h
  end.

(** [while games: ...], with [games] the list object at [l] *)
Fixpoint schedule_loop_st (fuel : nat) (courts : Z) (l : nat)
    (h : gmap nat (list A)) (sched : list (list A))
    : res (list (list A) * gmap nat (list A)) :=
  match h !!! l with
  | [] => Ret (sched, h)
  | _ :: _ =>
      match fuel with
      | O => Diverges
      | S fuel' =>
          '(round, h) ← fill_round_st courts (h !!! l) [] l h;
          schedule_loop_st fuel' courts l h (sched ++ [round])
      end
  end.

(** [schedule(games, courts)] called with the list object at [arg] *)
Definition schedule_st (h : gmap nat (list A)) (arg : nat) (courts : Z)
    : res (list (list A) * gmap nat (list A)) :=
  let l := fresh (dom h) in
  let h := <[l := h !!! arg]> h in
  schedule_loop_st (length (h !!! l)) courts l h [].
End schedule_store.

(** ** Counting opponents *)

(** [def pairing(p1, p2): return min(p1, p2), max(p1, p2)] *)
Definition pairing (p1 p2 : Player) : Pair := (Z.min p1 p2, Z.max p1 p2).

(** [collections.Counter(iterable)] and its lookup [c[key]], which is 0
    for a key that was never counted. *)
Definition Counter (keys : list Pair) : gmap Pair nat :=
  foldl (λ c k, <[k := S (default 0%nat (c !! k))]> c) ∅ keys.
Definition count (c : gmap Pair nat) (key : Pair) : Z :=
  Z.of_nat (default 0%nat (c !! key)).

(** [pairing(p1, p2) for A, B in games for p1 in A for p2 in B] *)
Definition oppositions (games : list Game) : list Pair :=
  g ← games; p1 ← [g.1.1; g.1.2]; p2 ← [g.2.1; g.2.2]; [pairing p1 p2].

(** [def opponents(games)] *)
Definition opponents (games : list Game) : gmap Pair nat :=
  Counter (oppositions games).

(** [sum(...)] over integers *)
Definition sum (l : list Z) : Z := foldr Z.add 0 l.

(** [def opp_difference(games, pairs, optimal=2)] *)
Definition opp_difference (games : list Game) (pairs : list Pair)
    (optimal : Z) : Z :=
  let opp := opponents games in
  sum ((λ pair, Z.abs (count opp pair - optimal) ^ 3) <$> pairs).

(** ** The random generator

    The module [random] is not part of the notebook: the state of its
    process-wide generator is a value of a type [rng], set once by
    [random.seed('reproducible')] in cell 1, and every draw maps a state
    to a result and the next state. *)
Class Random (rng : Type) := {
  (** [random.sample(population, k)] *)
  random_sample : ∀ {A}, list A → nat → rng → res (list A * rng);
  (** [random.choice(seq)] *)
  random_choice : ∀ {A}, list A → rng → res (A * rng);
}.

(** What the library documents about the two draws. *)
Class RandomLaws (rng : Type) `{Random rng} : Prop := {
  random_sample_ok {A} (pop : list A) (k : nat) (g : rng) :
    (k ≤ length pop)%nat →
    ∃ l g', random_sample pop k g = Ret (l, g') ∧ length l = k ∧ l ⊆+ pop;
  random_sample_large {A} (pop : list A) (k : nat) (g : rng) :
    (length pop < k)%nat → random_sample pop k g = Raise ValueError;
  random_choice_ok {A} (l : list A) (g : rng) :
    l ≠ [] → ∃ x g', random_choice l g = Ret (x, g') ∧ x ∈ l;
  random_choice_empty {A} (g : rng) :
    random_choice (@nil A) g = Raise IndexError;
}.

(** ** Hillclimbing *)

Definition Index : Type := (nat * nat) * (nat * nat).

(** [games[i]], [game[a]] and [game[a] = p] for a game, a list of length 2 *)
Definition getitem {A} (l : list A) (i : nat) : res A :=
  match l !! i with Some x => Ret x | None => Raise IndexError end.
Definition side (g : Game) (a : nat) : res Pair :=
  match a with
  | O => Ret g.1
  | 1%nat => Ret g.2
  | _ => Raise IndexError
  end.
Definition set_side (g : Game) (a : nat) (p : Pair) : res Game :=
  match a with
  | O => Ret (p, g.2)
  | 1%nat => Ret (g.1, p)
  | _ => Raise IndexError
  end.

Definition sides : list (nat * nat) :=
  [(0, 0); (1, 1); (0, 1); (1, 0)]%nat.

Section hillclimbing.
Context {rng : Type} `{Random rng}.

(** [def indexes(games)]; the list drawn by [random.sample] is kept as
    it is until the caller unpacks it. *)
Definition indexes (games : list Game) (g : rng)
    : res ((list nat * (nat * nat)) * rng) :=
  '(ij, g) ← random_sample (seq 0 (length games)) 2 g;
  '(ab, g) ← random_choice sides g;
  Ret ((ij, ab), g).

(** The unpacking [(g1, g2), (a, b) = idx] *)
Definition unpack (idx : list nat * (nat * nat)) : res Index :=
  match idx.1 with
  | [g1; g2] => Ret ((g1, g2), idx.2)
  | _ => Raise ValueError
  end.
End hillclimbing.

(** [def swap(games, idx)]:
    [games[g1][a], games[g2][b] = games[g2][b], games[g1][a]].
    The game objects are the positions of [games]; writing a side of a
    game changes that object. *)
Definition swap (games : list Game) (idx : Index) : res (list Game) :=
  let '((g1, g2), (a, b)) := idx in
  G2 ← getitem games g2; x ← side G2 b;
  G1 ← getitem games g1; y ← side G1 a;
  G1' ← set_side G1 a x;
  let games := <[g1 := G1']> games in
  G2 ← getitem games g2;
  G2' ← set_side G2 b y;
  Ret (<[g2 := G2']> games).

(** The state of the loop of [pickleball]: the list [games] of game
    objects, the schedule [sched], whose rounds hold game objects of
    [games] (positions in it), the cost [diff] and the generator. *)
Record state (rng : Type) := State {
  games : list Game;
  sched : list (list nat);
  diff : Z;
  gen : rng;
}.
Global Arguments State {rng} _ _ _ _.
Global Arguments games {rng} _.
Global Arguments sched {rng} _.
Global Arguments diff {rng} _.
Global Arguments gen {rng} _.

(** [schedule(games, courts)] on the game objects of [games] *)
Definition schedule_objects (games : list Game) (courts : Z)
    : res (list (list nat)) :=
  schedule_on (λ r, games !!! r) (seq 0 (length games)) courts.

(** The games that a schedule of game objects shows *)
Definition contents (games : list Game) (sched : list (list nat)) : Schedule :=
  map (map (λ r, games !!! r)) sched.

Section pickleball.
Context {rng : Type} `{Random rng}.

(** The condition of the [if]: [and] and the chained [==] stop at the
    first part that is false. *)
Definition keep_swap (courts : Z) (st : state rng) (games : list Game)
    (i j : nat) (diff2 : Z) : res bool :=
  if bool_decide (diff2 ≤ diff st) then
    s ← schedule_objects games courts;
    if bool_decide (length s ≤ length (sched st))%nat then
      Gi ← getitem games i;
      if bool_decide (size (players_game Gi) = 4%nat) then
        Gj ← getitem games j;
        Ret (bool_decide (4%nat = size (players_game Gj)))
      else Ret false
    else Ret false
  else Ret false.

(** One pass through the body of [for _ in range(N)] *)
Definition trial (courts : Z) (pairs : list Pair) (st : state rng)
    : res (state rng) :=
  '(idx, g) ← indexes (games st) (gen st);
  '((i, j), ab) ← unpack idx;
  games1 ← swap (games st) ((i, j), ab);
  let diff2 := opp_difference games1 pairs 2 in
  keep ← keep_swap courts st games1 i j diff2;
  if keep : bool then
    s ← schedule_objects games1 courts;
    Ret (State games1 s diff2 g)
  else
    games2 ← swap games1 ((i, j), ab);
    Ret (State games2 (sched st) (diff st) g).

Fixpoint trials (n : nat) (courts : Z) (pairs : list Pair)
    (st : state rng) : res (state rng) :=
  match n with
  | O => Ret st
  | S n' => st' ← trial courts pairs st; trials n' courts pairs st'
  end.

(** The lines of [pickleball] before the loop.  [make_games] may have
    returned [None], on which [opponents] raises a TypeError. *)
Definition initial (P courts : Z) (g : rng) : res (state rng) :=
  let pairs := all_pairs P in
  match make_games pairs with
  | None => Raise TypeError
  | Some games =>
      let diff := opp_difference games pairs 2 in
      sched ← schedule_objects games courts;
      Ret (State games sched diff g)
  end.

(** [pickleball] up to its [return]: the final state *)
Definition pickleball_run (P courts N : Z) (g : rng) : res (state rng) :=
  st ← initial P courts g;
  trials (Z.to_nat N) courts (all_pairs P) st.

(** [def pickleball(P, courts=2, N=100000)] *)
Definition pickleball (P courts N : Z) (g : rng) : res Schedule :=
  st ← pickleball_run P courts N g;
  Ret (contents (games st) (sched st)).
End pickleball.

(** ** A generator for running examples

    The state is the list of the numbers that the generator hands out
    next. *)
Module Tape.
Definition rng : Type := list nat.

(** a number below [n] *)
Definition randbelow (n : nat) (g : rng) : nat * rng :=
  match g with
  | [] => (0%nat, [])
  | x :: g' => ((x `mod` n)%nat, g')
  end.

Fixpoint sample {A} (pool : list A) (k : nat) (g : rng)
    : res (list A * rng) :=
  match k with
  | O => Ret ([], g)
  | S k' =>
      let '(j, g) := randbelow (length pool) g in
      match pool !! j with
      | None => Raise ValueError
      | Some x =>
          '(l, g) ← sample (delete j pool) k' g;
          Ret (x :: l, g)
      end
  end.

Definition choice {A} (l : list A) (g : rng) : res (A * rng) :=
  let '(j, g) := randbelow (length l) g in
  match l !! j with
  | None => Raise IndexError
  | Some x => Ret (x, g)
  end.

Global Instance random : Random rng :=
  {| random_sample := @sample; random_choice := @choice |}.
End Tape.


(** ** Vocabulary of the properties *)

(** The pairs that a list of games holds, in order *)
Definition game_pairs (g : Game) : list Pair := [g.1; g.2].
Definition pairs_of (gs : list Game) : list Pair := gs ≫= game_pairs.

(** A game has four different players. *)
Definition well_formed (g : Game) : Prop := four_players g.1 g.2.

(** The pairs with one player from [l1] and one from [l2] *)
Definition cross {X} (l1 l2 : list X) : list (X * X) :=
  x ← l1; map (pair x) l2.

(** Lists of pairs that can be put together into games *)
Definition matchable (ps : list Pair) : Prop :=
  ∃ ms, Forall well_formed ms ∧ ps ≡ₚ pairs_of ms.

(** The pair that [make_games (all_pairs P)] leaves out *)
Definition dropped_pair (P : Z) : list Pair :=
  if decide (P `mod` 4 = 0 ∨ (P - 1) `mod` 4 = 0) then []
  else [(P - 2, P - 1)].

(** All pairs of [P] players but the dropped one can be put into games. *)
Definition near_matchable (P : Z) : Prop :=
  ∃ ps, matchable ps ∧ all_pairs P ≡ₚ ps ++ dropped_pair P.

(** The games of [gs] in which the pair [p] plays *)
Definition games_with (p : Pair) (gs : list Game) : list Game :=
  filter (λ g, p ∈ game_pairs g) gs.

(** The test of [schedule] for putting [game] into [round] *)
Definition can_place {A} (val : A → Game) (courts : Z) (round : list A)
    (game : A) : bool :=
  bool_decide (Z.of_nat (length round) < courts)
  && disjoint (players_round (val <$> round)) (players_game (val game)).

(** No two games of a round share a player. *)
Definition player_disjoint (round : list Game) : Prop :=
  ∀ i j g1 g2, i ≠ j → round !! i = Some g1 → round !! j = Some g2 →
    players_game g1 ## players_game g2.

(** A round of a schedule for [courts] courts *)
Definition round_ok {A} (val : A → Game) (courts : Z) (round : list A) : Prop :=
  round ≠ [] ∧ Z.of_nat (length round) ≤ courts ∧ player_disjoint (val <$> round).

(** What holds of the state of [pickleball] between two trials: [diff]
    is the cost of [games], and [sched] is the schedule of [games]. *)
Record consistent {rng} (courts : Z) (pairs : list Pair) (st : state rng)
    : Prop := Consistent {
  consistent_diff : diff st = opp_difference (games st) pairs 2;
  consistent_sched : schedule_objects (games st) courts = Ret (sched st);
}.

(** The state after [k] trials of [pickleball P courts _] *)
Definition after_trials `{Random rng} (P courts : Z) (k : nat) (g : rng)
    : res (state rng) :=
  st ← initial P courts g; trials k courts (all_pairs P) st.

(** Two runs have the same outcome, with results related by [r]. *)
Inductive res_rel {A B} (r : A → B → Prop) : res A → res B → Prop :=
  | res_rel_Ret a b : r a b → res_rel r (Ret a) (Ret b)
  | res_rel_Raise e : res_rel r (Raise e) (Raise e)
  | res_rel_Diverges : res_rel r Diverges Diverges.

(** [sim] relates states of two generators from which [indexes] draws
    the same indexes, and which are related again after the draw. *)
Definition same_draws {rng1 rng2} `{Random rng1, Random rng2}
    (sim : rng1 → rng2 → Prop) : Prop :=
  ∀ games g1 g2, sim g1 g2 →
    res_rel (λ x y, x.1 = y.1 ∧ sim x.2 y.2)
      (indexes games g1) (indexes games g2).

(** States of [pickleball] that differ in the generator only *)
Definition state_sim {rng1 rng2} (sim : rng1 → rng2 → Prop)
    (st1 : state rng1) (st2 : state rng2) : Prop :=
  games st1 = games st2 ∧ sched st1 = sched st2 ∧ diff st1 = diff st2
  ∧ sim (gen st1) (gen st2).

(** Renaming the players by [σ]: the pair of the renamed players *)
Definition relabel (σ : Player → Player) (p : Pair) : Pair :=
  pairing (σ p.1) (σ p.2).

(** The renaming that exchanges the players [u] and [v] *)
Definition exchange (u v x : Player) : Player :=
  if decide (x = u) then v else if decide (x = v) then u else x.

(** Every game of a later round was refused by each round before it. *)
Fixpoint first_fit {A} (val : A → Game) (courts : Z)
    (rounds : list (list A)) : Prop :=
  match rounds with
  | [] => True
  | round :: later =>
      Forall (λ g, ¬ can_place val courts round g) (concat later)
      ∧ first_fit val courts later
  end.

(** The games of [gs] in which the player [x] plays *)
Definition games_of (x : Player) (gs : list Game) : list Game :=
  filter (λ g, x ∈ players_game g) gs.

(** The pairs of [ps] of which [x] is a partner *)
Definition pairs_with (x : Player) (ps : list Pair) : list Pair :=
  filter (λ p, x = p.1 ∨ x = p.2) ps.

(** The games of [gs] in which [a] and [b] play against each other *)
Definition games_across (a b : Player) (gs : list Game) : list Game :=
  filter (λ g, ((a = g.1.1 ∨ a = g.1.2) ∧ (b = g.2.1 ∨ b = g.2.2))
               ∨ ((b = g.1.1 ∨ b = g.1.2) ∧ (a = g.2.1 ∨ a = g.2.2))) gs.

(** * Properties *)

(** ** The examples of the notebook *)

Example all_pairs_4 :
  all_pairs 4 = [(0,1); (0,2); (0,3); (1,2); (1,3); (2,3)].
Proof. reflexivity. Qed.

Example make_games_4 :
  make_games (all_pairs 4)
  = Some [((0,1),(2,3)); ((0,2),(1,3)); ((0,3),(1,2))].
Proof. vm_compute. reflexivity. Qed.

Example make_games_6 :
  make_games (all_pairs 6)
  = Some [((0,1),(2,3)); ((0,2),(1,3)); ((0,3),(1,2)); ((0,4),(1,5));
          ((0,5),(1,4)); ((2,4),(3,5)); ((2,5),(3,4))].
Proof. vm_compute. reflexivity. Qed.

Example make_games_3 : make_games (all_pairs 3) = None.
Proof. vm_compute. reflexivity. Qed.

Example schedule_8 :
  schedule (default [] (make_games (all_pairs 8))) 2
  = Ret [[((0,1),(2,3)); ((4,5),(6,7))]; [((0,2),(1,3)); ((4,6),(5,7))];
         [((0,3),(1,2)); ((4,7),(5,6))]; [((0,4),(1,5)); ((2,6),(3,7))];
         [((0,5),(1,4)); ((2,7),(3,6))]; [((0,6),(1,7)); ((2,4),(3,5))];
         [((0,7),(1,6)); ((2,5),(3,4))]].
Proof. vm_compute. reflexivity. Qed.

Example opponents_8 :
  (λ pair, count (opponents (default [] (make_games (all_pairs 8)))) pair)
    <$> [(0,1); (0,2); (0,4); (2,3); (6,7)]
  = [6; 2; 1; 6; 6].
Proof. vm_compute. reflexivity. Qed.

(** ** Outcomes *)

Lemma bind_Ret {A B} (f : A → res B) (m : res A) (b : B) :
  m ≫= f = Ret b ↔ ∃ a, m = Ret a ∧ f a = Ret b.
Proof.
  destruct m as [a| |]; simpl; split; try done.
  - eauto.
  - by intros (a' & [= ->] & ?).
  - by intros (? & ? & ?).
  - by intros (? & ? & ?).
Qed.

Lemma Ret_bind {A B} (f : A → res B) (a : A) : Ret a ≫= f = f a.
Proof. done. Qed.

Lemma fmap_Ret {A B} (f : A → B) (m : res A) (b : B) :
  f <$> m = Ret b ↔ ∃ a, m = Ret a ∧ b = f a.
Proof.
  destruct m as [a| |]; simpl; split; try done.
  - intros [= <-]. eauto.
  - by intros (a' & [= ->] & ->).
  - by intros (? & ? & ?).
  - by intros (? & ? & ?).
Qed.

(** ** Sets of four players *)

Lemma size_list_to_set_le (l : list Player) :
  (size (list_to_set l : gset Player) ≤ length l)%nat.
Proof.
  induction l as [|x l IH]; cbn [length].
  - by rewrite list_to_set_nil, size_empty.
  - rewrite list_to_set_cons.
    destruct (decide (x ∈ (list_to_set l : gset Player))) as [Hin|Hin].
    + replace ({[x]} ∪ list_to_set l) with (list_to_set l : gset Player)
        by set_solver.
      lia.
    + rewrite size_union by set_solver. rewrite size_singleton. lia.
Qed.

Lemma size_list_to_set_NoDup (l : list Player) :
  size (list_to_set l : gset Player) = length l ↔ NoDup l.
Proof.
  split; [|apply size_list_to_set].
  induction l as [|x l IH]; cbn [length]; [constructor|].
  rewrite list_to_set_cons.
  intros Hsz. pose proof (size_list_to_set_le l) as Hle.
  destruct (decide (x ∈ (list_to_set l : gset Player))) as [Hin|Hin].
  - replace ({[x]} ∪ list_to_set l) with (list_to_set l : gset Player) in Hsz
      by set_solver.
    lia.
  - rewrite size_union, size_singleton in Hsz by set_solver.
    constructor; [set_solver|]. apply IH. lia.
Qed.

Lemma four_players_spec (A B : Pair) :
  four_players A B ↔ NoDup [A.1; A.2; B.1; B.2].
Proof.
  unfold four_players. rewrite bool_decide_spec.
  apply (size_list_to_set_NoDup [A.1; A.2; B.1; B.2]).
Qed.

Lemma four_players_sym (A B : Pair) : four_players A B → four_players B A.
Proof.
  rewrite !four_players_spec, !NoDup_cons, !NoDup_nil.
  set_solver.
Qed.

Lemma four_players_ne (A B : Pair) : four_players A B → A ≠ B.
Proof.
  rewrite four_players_spec, !NoDup_cons. intros (H1 & _) ->. set_solver.
Qed.

Lemma four_players_players_game (g : Game) :
  four_players g.1 g.2 ↔ size (players_game g) = 4%nat.
Proof.
  unfold four_players, players_game, players_pair. rewrite bool_decide_spec.
  replace (list_to_set [g.1.1; g.1.2; g.2.1; g.2.2] : gset Player)
    with ({[g.1.1]} ∪ {[g.1.2]} ∪ ({[g.2.1]} ∪ {[g.2.2]}) : gset Player);
    [done|].
  simpl. set_solver.
Qed.

(** ** [make_games] *)

Lemma not_in_game_length (A B : Pair) (pairs : list Pair) :
  A ∈ pairs → (length (not_in_game A B pairs) < length pairs)%nat.
Proof.
  intros HA. apply (length_filter_lt _ _ A); [done|]. set_solver.
Qed.

Lemma try_partners_ext (rec1 rec2 : list Pair → option (list Game)) A pairs cands :
  (∀ B, B ∈ cands → rec1 (not_in_game A B pairs) = rec2 (not_in_game A B pairs)) →
  try_partners rec1 A pairs cands = try_partners rec2 A pairs cands.
Proof.
  induction cands as [|B cands IH]; intros Hrec; simpl; [done|].
  rewrite (Hrec B) by set_solver.
  rewrite IH by (intros; apply Hrec; set_solver). done.
Qed.

Lemma make_games_rec_enough (n m : nat) (pairs : list Pair) :
  (length pairs ≤ n)%nat → (length pairs ≤ m)%nat →
  make_games_rec n pairs = make_games_rec m pairs.
Proof.
  revert m pairs. induction n as [|n IH]; intros m pairs Hn Hm.
  - destruct pairs as [|A [|A' pairs]]; [by destruct m..|simpl in *; lia].
  - destruct pairs as [|A [|A' pairs]]; [by destruct m..|].
    destruct m as [|m]; [simpl in *; lia|].
    change (try_partners (make_games_rec n) A
              (A :: A' :: pairs) (A :: A' :: pairs)
            = try_partners (make_games_rec m) A
                (A :: A' :: pairs) (A :: A' :: pairs)).
    apply try_partners_ext. intros B _.
    assert (length (not_in_game A B (A :: A' :: pairs))
            < length (A :: A' :: pairs))%nat as Hlt
      by (apply not_in_game_length; set_solver).
    apply IH; simpl in *; lia.
Qed.

(** [make_games] satisfies the equation that defines it in the source. *)
Lemma make_games_unfold (pairs : list Pair) :
  make_games pairs =
    match pairs with
    | [] | [_] => Some []
    | A :: _ => try_partners make_games A pairs pairs
    end.
Proof.
  destruct pairs as [|A [|A' pairs]]; [done..|].
  unfold make_games at 1.
  change (try_partners (make_games_rec (S (length pairs))) A
            (A :: A' :: pairs) (A :: A' :: pairs)
          = try_partners make_games A (A :: A' :: pairs) (A :: A' :: pairs)).
  apply try_partners_ext. intros B _. unfold make_games.
  assert (length (not_in_game A B (A :: A' :: pairs))
          < length (A :: A' :: pairs))%nat as Hlt
    by (apply not_in_game_length; set_solver).
  apply make_games_rec_enough; simpl in *; lia.
Qed.

Lemma try_partners_None rec A pairs cands :
  try_partners rec A pairs cands = None ↔
  Forall (λ B, four_players A B → rec (not_in_game A B pairs) = None) cands.
Proof.
  induction cands as [|B cands IH]; simpl.
  - split; [constructor|done].
  - rewrite Forall_cons. destruct (four_players A B) eqn:HAB.
    + destruct (rec (not_in_game A B pairs)) eqn:Hrec.
      * split; [done|]. intros [Hno _]. by specialize (Hno I).
      * rewrite IH. naive_solver.
    + rewrite IH. split; [|naive_solver]. intros ?; split; [|done].
      by intros [].
Qed.

Lemma try_partners_Some rec A pairs cands gs :
  try_partners rec A pairs cands = Some gs →
  ∃ B other, B ∈ cands ∧ four_players A B ∧
    rec (not_in_game A B pairs) = Some other ∧ gs = (A, B) :: other.
Proof.
  induction cands as [|B cands IH]; simpl; [done|].
  destruct (four_players A B) eqn:HAB.
  - destruct (rec (not_in_game A B pairs)) as [other|] eqn:Hrec.
    + intros [= <-]. exists B, other. rewrite HAB. set_solver.
    + intros (B' & other & ? & ?)%IH. exists B', other. set_solver.
  - intros (B' & other & ? & ?)%IH. exists B', other. set_solver.
Qed.

Lemma try_partners_found rec A pairs cands B :
  B ∈ cands → four_players A B → is_Some (rec (not_in_game A B pairs)) →
  is_Some (try_partners rec A pairs cands).
Proof.
  intros HB HAB Hrec. destruct (try_partners rec A pairs cands) eqn:Htry; [done|].
  apply try_partners_None in Htry. rewrite Forall_forall in Htry.
  rewrite (Htry B HB HAB) in Hrec. by destruct Hrec.
Qed.

Global Instance pairs_of_Permutation : Proper ((≡ₚ) ==> (≡ₚ)) pairs_of.
Proof. intros gs1 gs2 Hgs. unfold pairs_of. by rewrite Hgs. Qed.

Lemma pairs_of_cons g gs : pairs_of (g :: gs) = g.1 :: g.2 :: pairs_of gs.
Proof. done. Qed.

Lemma pairs_of_app gs1 gs2 : pairs_of (gs1 ++ gs2) = pairs_of gs1 ++ pairs_of gs2.
Proof. unfold pairs_of. by rewrite bind_app. Qed.

Lemma filter_keeps_all {X} (P : X → Prop) `{∀ x, Decision (P x)} (l : list X) :
  (∀ x, x ∈ l → P x) → filter P l = l.
Proof.
  induction l as [|x l IH]; intros HP; [done|].
  rewrite filter_cons, decide_True by (apply HP; set_solver).
  f_equal. apply IH. intros; apply HP; set_solver.
Qed.

Lemma not_in_game_Permutation (A B : Pair) (pairs : list Pair) :
  NoDup pairs → A ∈ pairs → B ∈ pairs → A ≠ B →
  pairs ≡ₚ A :: B :: not_in_game A B pairs.
Proof.
  intros Hnd HA HB HAB.
  rewrite <-(filter_app_complement (λ p, p ∉ [A; B]) pairs) at 1.
  change (A :: B :: not_in_game A B pairs) with ([A; B] ++ not_in_game A B pairs).
  rewrite (comm (++) [A; B]). apply Permutation_app; [done|].
  apply NoDup_Permutation.
  - by apply NoDup_filter.
  - rewrite !NoDup_cons, NoDup_nil. set_solver.
  - intros p. rewrite list_elem_of_filter.
    destruct (decide (p ∈ [A; B])); set_solver.
Qed.

Lemma make_games_sound (pairs : list Pair) (gs : list Game) :
  NoDup pairs → make_games pairs = Some gs →
  Forall well_formed gs ∧
  ∃ dropped, pairs ≡ₚ pairs_of gs ++ dropped ∧ (length dropped < 2)%nat.
Proof.
  remember (length pairs) as n eqn:Hn. revert pairs gs Hn.
  induction n as [n IH] using lt_wf_ind. intros pairs gs -> Hnd.
  rewrite make_games_unfold.
  destruct pairs as [|A [|A' pairs]].
  - intros [= <-]. split; [constructor|]. exists []. simpl. split; [done|lia].
  - intros [= <-]. split; [constructor|]. exists [A]. simpl. split; [done|lia].
  - intros (B & other & HB & HAB & Hrec & ->)%try_partners_Some.
    set (ps := A :: A' :: pairs) in *.
    assert (A ∈ ps) as HA by (subst ps; set_solver).
    pose proof (not_in_game_length A B ps HA) as Hlt.
    apply four_players_ne in HAB as Hne.
    pose proof (not_in_game_Permutation A B ps Hnd HA HB Hne) as Hperm.
    destruct (IH _ Hlt _ other eq_refl) as (Hwf & dropped & Hother & Hlen);
      [by apply NoDup_filter|done|].
    split; [by constructor|].
    exists dropped. split; [|done].
    rewrite pairs_of_cons. simpl. by rewrite <-Hother.
Qed.

Lemma make_games_complete (ms : list Game) (l tail : list Pair) :
  NoDup (l ++ tail) → Forall well_formed ms → l ≡ₚ pairs_of ms →
  (length tail ≤ 1)%nat →
  is_Some (make_games (l ++ tail)).
Proof.
  remember (length ms) as n eqn:Hn. revert ms l Hn.
  induction n as [|n IH]; intros ms l Hn Hnd Hwf Hl Htail.
  - destruct ms; [|done]. apply Permutation_nil_r in Hl as ->. simpl.
    rewrite make_games_unfold. by destruct tail as [|? [|??]]; simpl in *; try lia.
  - destruct l as [|A l'].
    { destruct ms as [|g ms]; [done|]. rewrite pairs_of_cons in Hl.
      by apply Permutation_nil_cons in Hl. }
    assert (A ∈ pairs_of ms) as HA by (rewrite <-Hl; set_solver).
    apply list_elem_of_bind in HA as (g & HAg & Hg).
    apply elem_of_Permutation in Hg as [ms' Hms].
    assert (∃ B, four_players A B ∧ A :: l' ≡ₚ A :: B :: pairs_of ms')
      as (B & HAB & Hl').
    { rewrite Hms, pairs_of_cons in Hl.
      assert (well_formed g) as Hg.
      { rewrite Hms in Hwf. by apply Forall_cons in Hwf as [? _]. }
      unfold game_pairs in HAg.
      apply elem_of_cons in HAg as [->|HAg].
      - by exists g.2.
      - apply list_elem_of_singleton in HAg as ->. exists g.1.
        split; [by apply four_players_sym|]. by rewrite Hl, Permutation_swap. }
    apply NoDup_app in Hnd as Hnd'. destruct Hnd' as (Hndl & Hdisj & _).
    assert (B ∈ A :: l') as HB by (rewrite Hl'; set_solver).
    apply four_players_ne in HAB as Hne.
    pose proof (not_in_game_Permutation A B (A :: l') Hndl
                  ltac:(set_solver) HB Hne) as Hrest.
    assert (not_in_game A B ((A :: l') ++ tail)
            = not_in_game A B (A :: l') ++ tail) as Hfilter.
    { unfold not_in_game. rewrite filter_app. f_equal.
      apply filter_keeps_all. intros p Hp. set_solver. }
    assert (length ms' = n) as Hn'.
    { apply Permutation_length in Hms. simpl in Hms. lia. }
    assert (is_Some (make_games (not_in_game A B ((A :: l') ++ tail)))) as Hrec.
    { rewrite Hfilter. apply (IH ms'); [done| | | |done].
      - rewrite <-Hfilter. by apply NoDup_filter.
      - rewrite Hms in Hwf. by apply Forall_cons in Hwf as [_ ?].
      - rewrite Hrest in Hl'. by do 2 apply Permutation_cons_inv in Hl'. }
    rewrite make_games_unfold.
    destruct l' as [|A' l''].
    { apply Permutation_length in Hl'. done. }
    apply (try_partners_found _ _ _ _ B); [set_solver|done|done].
Qed.

(** ** [all_pairs] *)

Lemma combinations2_app {X} (l1 l2 : list X) :
  combinations2 (l1 ++ l2)
  ≡ₚ combinations2 l1 ++ cross l1 l2 ++ combinations2 l2.
Proof.
  induction l1 as [|x l1 IH]; [done|].
  cbn [combinations2 app]. rewrite map_app, IH.
  change (cross (x :: l1) l2) with (map (pair x) l2 ++ cross l1 l2).
  rewrite <-!(assoc (++)). f_equiv.
  rewrite !(assoc (++)). do 2 f_equiv. apply (comm (++)).
Qed.

Lemma elem_of_combinations2 {X} (l : list X) (a b : X) :
  (a, b) ∈ combinations2 l ↔
  ∃ i j, (i < j)%nat ∧ l !! i = Some a ∧ l !! j = Some b.
Proof.
  induction l as [|x l IH]; simpl.
  - split; [by intros ?%elem_of_nil|]. by intros (i & j & _ & ? & _).
  - rewrite elem_of_app, IH, list_elem_of_fmap. split.
    + intros [(y & [= -> ->] & (j & Hj)%list_elem_of_lookup)
             |(i & j & Hij & Hi & Hj)].
      * exists 0%nat, (S j). split; [lia|done].
      * exists (S i), (S j). split; [lia|done].
    + intros (i & j & Hij & Hi & Hj).
      destruct j as [|j]; [lia|]. destruct i as [|i]; simplify_eq/=.
      * left. exists b. split; [done|]. by eapply list_elem_of_lookup_2.
      * right. exists i, j. split; [lia|done].
Qed.

Lemma NoDup_combinations2 {X} (l : list X) : NoDup l → NoDup (combinations2 l).
Proof.
  induction 1 as [|x l Hx Hl IH]; simpl; [constructor|].
  apply NoDup_app. split_and!; [|intros [a b]|done].
  - apply (NoDup_fmap_2 _). done.
  - rewrite list_elem_of_fmap, elem_of_combinations2.
    intros (y & [= -> ->] & _) (i & j & _ & Hi%list_elem_of_lookup_2 & _).
    done.
Qed.

Lemma length_combinations2 {X} (l : list X) :
  (2 * length (combinations2 l) = length l * (length l - 1))%nat.
Proof.
  induction l as [|x l IH]; simpl; [done|].
  rewrite length_app, length_map. nia.
Qed.

Lemma combinations2_last {X} (l : list X) (x y : X) :
  ∃ init, combinations2 (l ++ [x; y]) = init ++ [(x, y)].
Proof.
  induction l as [|z l [init IH]].
  - by exists [].
  - exists (map (pair z) (l ++ [x; y]) ++ init). cbn [combinations2 app].
    by rewrite IH, (assoc (++)).
Qed.

Lemma range_app (P : Z) (n : Z) :
  0 ≤ P → 0 ≤ n → range (P + n) = range P ++ seqZ P n.
Proof. intros. unfold range. by rewrite seqZ_app. Qed.

Lemma elem_of_range (P x : Z) : x ∈ range P ↔ 0 ≤ x < P.
Proof. unfold range. rewrite elem_of_seqZ. lia. Qed.

Lemma NoDup_all_pairs (P : Z) : NoDup (all_pairs P).
Proof. apply NoDup_combinations2, NoDup_seqZ. Qed.

Lemma elem_of_all_pairs (P a b : Z) : (a, b) ∈ all_pairs P ↔ 0 ≤ a ∧ a < b ∧ b < P.
Proof.
  unfold all_pairs, range. rewrite elem_of_combinations2. split.
  - intros (i & j & Hij & Hi & Hj).
    apply lookup_seqZ in Hi, Hj. lia.
  - intros Hab. exists (Z.to_nat a), (Z.to_nat b).
    split; [lia|]. rewrite !lookup_seqZ. lia.
Qed.

Lemma length_all_pairs (P : Z) :
  0 ≤ P → Z.of_nat (length (all_pairs P)) = P * (P - 1) / 2.
Proof.
  intros HP. pose proof (length_combinations2 (range P)) as Hlen.
  unfold all_pairs. unfold range in *. rewrite length_seqZ in Hlen.
  apply Z.div_unique_exact; [done|].
  remember (Z.to_nat P) as n eqn:Hn.
  assert (P = Z.of_nat n) as -> by lia. clear Hn HP.
  destruct n as [|n]; [simpl in *; lia|].
  replace (S n - 1)%nat with n in Hlen by lia.
  set (k := length _) in *. clearbody k. nia.
Qed.

Lemma all_pairs_small (P : Z) : P < 2 → all_pairs P = [].
Proof.
  intros HP. unfold all_pairs, range.
  destruct (decide (P ≤ 0)) as [?|?].
  - by rewrite seqZ_nil.
  - by replace P with 1 by lia.
Qed.

Lemma all_pairs_last (P : Z) :
  2 ≤ P → ∃ init, all_pairs P = init ++ [(P - 2, P - 1)].
Proof.
  intros HP. unfold all_pairs.
  assert (range P = range (P - 2) ++ [P - 2; P - 1]) as ->;
    [|apply combinations2_last].
  replace [P - 2; P - 1] with (seqZ (P - 2) 2)
    by (cbv [seqZ]; simpl; repeat (apply (f_equal2 cons); [lia|]); done).
  rewrite <-(range_app (P - 2) 2) by lia. f_equal. lia.
Qed.

(** ** Lists of pairs that can be put together into games *)

Global Instance matchable_Permutation : Proper ((≡ₚ) ==> iff) matchable.
Proof.
  assert (∀ p1 p2, p1 ≡ₚ p2 → matchable p1 → matchable p2) as Himpl.
  { intros p1 p2 Hp (ms & Hwf & Hms). exists ms. by rewrite <-Hp. }
  intros p1 p2 Hp. split; apply Himpl; done.
Qed.

Lemma matchable_nil : matchable [].
Proof. exists []. split; [constructor|done]. Qed.

Lemma matchable_app (p1 p2 : list Pair) :
  matchable p1 → matchable p2 → matchable (p1 ++ p2).
Proof.
  intros (m1 & Hwf1 & Hm1) (m2 & Hwf2 & Hm2). exists (m1 ++ m2).
  split; [by apply Forall_app|]. by rewrite pairs_of_app, Hm1, Hm2.
Qed.

Lemma matchable_games (ms : list Game) :
  Forall well_formed ms → matchable (pairs_of ms).
Proof. intros Hwf. by exists ms. Qed.

Lemma well_formed_ne (x a y b : Z) :
  x ≠ a → x ≠ y → x ≠ b → a ≠ y → a ≠ b → y ≠ b → well_formed ((x, a), (y, b)).
Proof.
  intros. apply four_players_spec. simpl.
  rewrite !NoDup_cons, NoDup_nil, !not_elem_of_cons, !elem_of_nil. lia.
Qed.

Lemma list_two_step_ind {X} (Q : list X → Prop) :
  Q [] → (∀ x, Q [x]) → (∀ x y l, Q l → Q (x :: y :: l)) → ∀ l, Q l.
Proof.
  intros H0 H1 H2 l. cut (Q l ∧ ∀ x, Q (x :: l)); [by intros []|].
  induction l as [|y l [IH1 IH2]]; split; auto.
Qed.

(** The pairs of a player below [P] with one of four new players
    [P .. P+3] can be put together into games, unless there is exactly
    one player below [P]. *)
Lemma cross_matchable (l : list Z) (P : Z) :
  NoDup l → Forall (λ x, x < P) l → length l ≠ 1%nat →
  matchable (cross l [P; P + 1; P + 2; P + 3]).
Proof.
  induction l as [| |x y l IH] using list_two_step_ind; intros Hnd Hlt Hlen.
  - apply matchable_nil.
  - done.
  - apply NoDup_cons in Hnd as [Hx [Hy Hnd]%NoDup_cons].
    apply Forall_cons in Hlt as [Hxlt [Hylt Hlt]%Forall_cons].
    apply not_elem_of_cons in Hx as [Hxy Hx].
    destruct (decide (length l = 1%nat)) as [Hl|Hl].
    + destruct l as [|z [|??]]; try done.
      apply not_elem_of_cons in Hx as [Hxz _].
      apply not_elem_of_cons in Hy as [Hyz _].
      apply Forall_cons in Hlt as [Hzlt _].
      exists [((x, P), (y, P + 1)); ((y, P), (z, P + 1)); ((z, P), (x, P + 1));
              ((x, P + 2), (y, P + 3)); ((y, P + 2), (z, P + 3));
              ((z, P + 2), (x, P + 3))].
      split; [|cbn; solve_Permutation].
      repeat constructor; apply well_formed_ne; lia.
    + change (cross (x :: y :: l) ?k) with (cross [x; y] k ++ cross l k).
      apply matchable_app; [|by apply IH].
      exists [((x, P), (y, P + 1)); ((x, P + 1), (y, P));
              ((x, P + 2), (y, P + 3)); ((x, P + 3), (y, P + 2))].
      split; [|cbn; solve_Permutation].
      repeat constructor; apply well_formed_ne; lia.
Qed.

Lemma all_pairs_plus_4 (P : Z) :
  0 ≤ P →
  all_pairs (P + 4)
  ≡ₚ all_pairs P ++ cross (range P) [P; P + 1; P + 2; P + 3]
     ++ [(P, P + 1); (P, P + 2); (P, P + 3);
         (P + 1, P + 2); (P + 1, P + 3); (P + 2, P + 3)].
Proof.
  intros HP. unfold all_pairs. rewrite range_app by lia.
  replace (seqZ P 4) with [P; P + 1; P + 2; P + 3]
    by (cbv [seqZ]; simpl; repeat (apply (f_equal2 cons); [lia|]); done).
  apply (combinations2_app (range P) [P; P + 1; P + 2; P + 3]).
Qed.

Lemma near_matchable_step (P : Z) :
  P = 0 ∨ 2 ≤ P → near_matchable P → near_matchable (P + 4).
Proof.
  intros HP (ps & Hps & Hall).
  assert (matchable (cross (range P) [P; P + 1; P + 2; P + 3])) as Hcross.
  { apply cross_matchable.
    - apply NoDup_seqZ.
    - apply Forall_forall. intros x ?%elem_of_range. lia.
    - unfold range. rewrite length_seqZ. lia. }
  pose proof (all_pairs_plus_4 P) as H4. rewrite Hall in H4 by lia.
  unfold near_matchable, dropped_pair in *.
  destruct (decide (P `mod` 4 = 0 ∨ _)) as [Hev|Hodd].
  - rewrite decide_True by (Z.div_mod_to_equations; lia).
    exists (ps ++ cross (range P) [P; P + 1; P + 2; P + 3]
            ++ [(P, P + 1); (P, P + 2); (P, P + 3);
                (P + 1, P + 2); (P + 1, P + 3); (P + 2, P + 3)]).
    split; [|rewrite H4 by lia; solve_Permutation].
    apply matchable_app; [done|]. apply matchable_app; [done|].
    exists [((P, P + 1), (P + 2, P + 3)); ((P, P + 2), (P + 1, P + 3));
            ((P, P + 3), (P + 1, P + 2))].
    split; [|cbn; solve_Permutation].
    repeat constructor; apply well_formed_ne; lia.
  - rewrite decide_False by (Z.div_mod_to_equations; lia).
    replace (P + 4 - 2) with (P + 2) by lia.
    replace (P + 4 - 1) with (P + 3) by lia.
    exists (ps ++ cross (range P) [P; P + 1; P + 2; P + 3]
            ++ [(P - 2, P - 1); (P, P + 1); (P, P + 2); (P + 1, P + 3);
                (P, P + 3); (P + 1, P + 2)]).
    split; [|rewrite H4 by lia; solve_Permutation].
    apply matchable_app; [done|]. apply matchable_app; [done|].
    exists [((P - 2, P - 1), (P, P + 1)); ((P, P + 2), (P + 1, P + 3));
            ((P, P + 3), (P + 1, P + 2))].
    split; [|cbn; solve_Permutation].
    assert (2 ≤ P) by (destruct HP as [->|]; [by destruct Hodd; left|done]).
    repeat constructor; apply well_formed_ne; lia.
Qed.

Lemma near_matchable_0 : near_matchable 0.
Proof. exists []. split; [apply matchable_nil|done]. Qed.

Lemma near_matchable_2 : near_matchable 2.
Proof. exists []. split; [apply matchable_nil|done]. Qed.

Lemma near_matchable_5 : near_matchable 5.
Proof.
  exists (all_pairs 5). split; [|by rewrite app_nil_r].
  exists [((0,1),(2,3)); ((0,2),(1,4)); ((0,3),(2,4)); ((0,4),(1,3));
          ((1,2),(3,4))].
  split; [|vm_compute; solve_Permutation].
  repeat constructor; apply well_formed_ne; lia.
Qed.

Lemma near_matchable_7 : near_matchable 7.
Proof.
  exists (pairs_of [((0,1),(2,3)); ((0,2),(1,3)); ((0,3),(1,2)); ((0,4),(1,5));
                    ((0,5),(1,4)); ((0,6),(2,4)); ((1,6),(2,5)); ((2,6),(3,4));
                    ((3,5),(4,6)); ((3,6),(4,5))]).
  split; [|vm_compute; solve_Permutation].
  apply matchable_games.
  repeat constructor; apply well_formed_ne; lia.
Qed.

Lemma near_matchable_all (P : Z) : 4 ≤ P → near_matchable P.
Proof.
  intros HP.
  assert (∀ k : nat, ∀ r, r ∈ [0; 2; 5; 7] →
            near_matchable (r + 4 * Z.of_nat k)) as Hall.
  { induction k as [|k IH]; intros r Hr.
    - rewrite Z.add_0_r.
      repeat (apply elem_of_cons in Hr as [->|Hr]);
        [apply near_matchable_0|apply near_matchable_2
        |apply near_matchable_5|apply near_matchable_7
        |by apply elem_of_nil in Hr].
    - replace (r + 4 * Z.of_nat (S k)) with (r + 4 * Z.of_nat k + 4) by lia.
      apply near_matchable_step; [|by apply IH].
      repeat (apply elem_of_cons in Hr as [->|Hr]);
        [lia..|by apply elem_of_nil in Hr]. }
  assert (∃ (k : nat) r, r ∈ [0; 2; 5; 7] ∧ P = r + 4 * Z.of_nat k)
    as (k & r & Hr & ->); [|by apply Hall].
  destruct (decide (P `mod` 4 = 0)); [|destruct (decide (P `mod` 4 = 1));
    [|destruct (decide (P `mod` 4 = 2))]].
  - exists (Z.to_nat (P / 4)), 0. split; [set_solver|].
    Z.div_mod_to_equations; lia.
  - exists (Z.to_nat ((P - 5) / 4)), 5. split; [set_solver|].
    Z.div_mod_to_equations; lia.
  - exists (Z.to_nat ((P - 2) / 4)), 2. split; [set_solver|].
    Z.div_mod_to_equations; lia.
  - exists (Z.to_nat ((P - 7) / 4)), 7. split; [set_solver|].
    Z.div_mod_to_equations; lia.
Qed.

Lemma make_games_all_pairs_Some (P : Z) :
  4 ≤ P → is_Some (make_games (all_pairs P)).
Proof.
  intros HP. destruct (near_matchable_all P HP) as (ps & (ms & Hwf & Hms) & Hall).
  unfold dropped_pair in Hall. case_decide.
  - rewrite app_nil_r in Hall. rewrite <-(app_nil_r (all_pairs P)).
    apply (make_games_complete ms); simpl; [|done| |lia].
    + rewrite app_nil_r. apply NoDup_all_pairs.
    + by rewrite Hall.
  - destruct (all_pairs_last P) as [init Hinit]; [lia|].
    pose proof (NoDup_all_pairs P) as Hnd.
    rewrite Hinit in Hall, Hnd |- *.
    apply Permutation_app_inv_r in Hall.
    apply (make_games_complete ms); simpl; [done|done| |lia].
    by rewrite Hall.
Qed.

(** An element of a list of lists without duplicates sits in exactly
    one of the lists. *)
Lemma filter_holders_none {X Y} `{EqDecision Y} (f : X → list Y)
    (l : list X) (y : Y) :
  y ∉ l ≫= f → filter (λ x, y ∈ f x) l = [].
Proof.
  induction l as [|x l IH]; [done|].
  rewrite bind_cons, not_elem_of_app. intros [Hx Hl].
  rewrite filter_cons, decide_False by done. by apply IH.
Qed.

Lemma filter_holders_one {X Y} `{EqDecision Y} (f : X → list Y)
    (l : list X) (y : Y) :
  NoDup (l ≫= f) → y ∈ l ≫= f → length (filter (λ x, y ∈ f x) l) = 1%nat.
Proof.
  induction l as [|x l IH]; [by intros _ ?%elem_of_nil|].
  rewrite bind_cons, NoDup_app, elem_of_app. intros (_ & Hdisj & Hnd) Hy.
  rewrite filter_cons. destruct (decide (y ∈ f x)) as [Hx|Hx].
  - rewrite filter_holders_none; [done|]. by apply Hdisj.
  - apply IH; [done|]. by destruct Hy.
Qed.

Lemma games_with_none (p : Pair) (gs : list Game) :
  p ∉ pairs_of gs → games_with p gs = [].
Proof. apply filter_holders_none. Qed.

Lemma games_with_one (p : Pair) (gs : list Game) :
  NoDup (pairs_of gs) → p ∈ pairs_of gs → length (games_with p gs) = 1%nat.
Proof. apply filter_holders_one. Qed.

Lemma concat_bind {X} (ls : list (list X)) : concat ls = ls ≫= id.
Proof. induction ls as [|l ls IH]; [done|]. simpl. by rewrite IH. Qed.

Lemma length_pairs_of (gs : list Game) :
  length (pairs_of gs) = (2 * length gs)%nat.
Proof.
  induction gs as [|g gs IH]; [done|].
  rewrite pairs_of_cons. simpl. lia.
Qed.

Lemma double_length_all_pairs (P : Z) :
  0 ≤ P → 2 * Z.of_nat (length (all_pairs P)) = P * (P - 1).
Proof.
  intros HP. rewrite length_all_pairs by done.
  assert (∃ k, P * (P - 1) = 2 * k) as [k ->];
    [|by rewrite (Z.mul_comm 2 k), Z.div_mul, (Z.mul_comm 2 k)].
  destruct (Z.even P) eqn:Hev.
  - apply Z.even_spec in Hev as [k ->]. exists (k * (2 * k - 1)). lia.
  - apply (f_equal negb) in Hev. rewrite Z.negb_even in Hev.
    apply Z.odd_spec in Hev as [k ->]. exists ((2 * k + 1) * k). lia.
Qed.

(** [P * (P - 1) / 2] pairs make [P * (P - 1) / 4] games, with a pair
    left iff neither [P] nor [P - 1] is a multiple of 4. *)
Lemma games_arithmetic (P g d : Z) :
  0 ≤ d < 2 → 2 * (2 * g + d) = P * (P - 1) →
  g = P * (P - 1) / 4 ∧ (d = 0 ↔ P `mod` 4 = 0 ∨ (P - 1) `mod` 4 = 0).
Proof.
  intros Hd Hg. rewrite <-Hg.
  split.
  - apply (Z.div_unique _ _ _ (2 * d)); lia.
  - assert (P * (P - 1) = 4 * g + 2 * d) as HP by lia. clear Hg.
    pose proof (Z.div_mod P 4 ltac:(done)) as Hdm.
    pose proof (Z.mod_pos_bound P 4 ltac:(done)) as Hr.
    pose proof (Z.div_mod (P - 1) 4 ltac:(done)) as Hdm'.
    pose proof (Z.mod_pos_bound (P - 1) 4 ltac:(done)) as Hr'.
    set (k := P `div` 4) in *. set (r := P `mod` 4) in *.
    set (k' := (P - 1) `div` 4) in *. set (r' := (P - 1) `mod` 4) in *.
    clearbody k r k' r'.
    assert (r = 0 ∨ r = 1 ∨ r = 2 ∨ r = 3) as Hcases by lia.
    destruct Hcases as [-> | [-> | [-> | ->]]]; subst P; nia.
Qed.

(** What [make_games] makes of all pairs of at least 4 players *)
Lemma make_games_all_pairs_spec (P : Z) :
  4 ≤ P →
  ∃ games,
    make_games (all_pairs P) = Some games
    ∧ Forall well_formed games
    ∧ Z.of_nat (length games) = P * (P - 1) / 4
    ∧ (P `mod` 4 = 0 ∨ (P - 1) `mod` 4 = 0 →
        ∀ p, p ∈ all_pairs P → length (games_with p games) = 1%nat)
    ∧ (¬ (P `mod` 4 = 0 ∨ (P - 1) `mod` 4 = 0) →
        ∃ q, q ∈ all_pairs P ∧ games_with q games = [] ∧
          ∀ p, p ∈ all_pairs P → p ≠ q → length (games_with p games) = 1%nat).
Proof.
  intros HP. destruct (make_games_all_pairs_Some P HP) as [gs Hgs].
  exists gs. split; [done|].
  destruct (make_games_sound _ _ (NoDup_all_pairs P) Hgs)
    as (Hwf & dropped & Hperm & Hdropped).
  split; [done|].
  pose proof (NoDup_all_pairs P) as Hnd. rewrite Hperm in Hnd.
  apply NoDup_app in Hnd as (Hnd & Hdisj & _).
  pose proof (double_length_all_pairs P ltac:(lia)) as Hlen.
  rewrite Hperm, length_app, length_pairs_of in Hlen.
  destruct (games_arithmetic P (Z.of_nat (length gs))
              (Z.of_nat (length dropped))) as [Hg Hd]; [lia|lia|].
  split; [done|]. split.
  - intros Hmod. apply Hd in Hmod. destruct dropped; [|done].
    intros p Hp. apply games_with_one; [done|].
    by rewrite Hperm, app_nil_r in Hp.
  - intros Hmod. destruct dropped as [|q [|??]]; [|clear Hd|simpl in *; lia].
    { destruct Hmod. by apply Hd. }
    exists q. split; [rewrite Hperm, elem_of_app; right; constructor|].
    split.
    { apply games_with_none. intros Hq. apply (Hdisj q Hq). constructor. }
    intros p Hp Hpq. apply games_with_one; [done|].
    rewrite Hperm, elem_of_app, list_elem_of_singleton in Hp.
    by destruct Hp.
Qed.

(** C4: for every [P ≥ 4], [make_games (all_pairs P)] does not signal
    no-match; it makes [P * (P - 1) / 4] (rounded down) games of four
    different players.  When [P] or [P - 1] is a multiple of 4, every pair
    of [all_pairs P] is in exactly one game; otherwise exactly one pair is
    in no game and every other pair is in exactly one game. *)
Theorem make_games_all_pairs (P : Z) :
  4 ≤ P →
  ∃ games,
    make_games (all_pairs P) = Some games
    ∧ Forall well_formed games
    ∧ Z.of_nat (length games) = P * (P - 1) / 4
    ∧ (P `mod` 4 = 0 ∨ (P - 1) `mod` 4 = 0 →
        ∀ p, p ∈ all_pairs P → length (games_with p games) = 1%nat)
    ∧ (¬ (P `mod` 4 = 0 ∨ (P - 1) `mod` 4 = 0) →
        ∃ q, q ∈ all_pairs P ∧ games_with q games = [] ∧
          ∀ p, p ∈ all_pairs P → p ≠ q → length (games_with p games) = 1%nat).
Proof. apply make_games_all_pairs_spec. Qed.

Lemma make_games_all_pairs_witness :
  4 ≤ 6 ∧
  ∃ games,
    make_games (all_pairs 6) = Some games
    ∧ Forall well_formed games
    ∧ Z.of_nat (length games) = 6 * (6 - 1) / 4
    ∧ (6 `mod` 4 = 0 ∨ (6 - 1) `mod` 4 = 0 →
        ∀ p, p ∈ all_pairs 6 → length (games_with p games) = 1%nat)
    ∧ (¬ (6 `mod` 4 = 0 ∨ (6 - 1) `mod` 4 = 0) →
        ∃ q, q ∈ all_pairs 6 ∧ games_with q games = [] ∧
          ∀ p, p ∈ all_pairs 6 → p ≠ q → length (games_with p games) = 1%nat).
Proof. split; [lia|]. apply (make_games_all_pairs 6). lia. Defined.

(** C8: [make_games] keeps no-match and trivial success apart.  With
    fewer than 2 pairs it returns the empty list of games; with 2 pairs or
    more it returns [None] exactly when every partner [B] that makes four
    players with the first pair [A] leaves pairs of which no games can be
    made.  [None] is another value than the empty list, and every result
    is either [None] or a list of games, never both. *)
Theorem make_games_no_match (pairs : list Pair) :
  ((length pairs < 2)%nat → make_games pairs = Some [])
  ∧ (∀ A rest, pairs = A :: rest → rest ≠ [] →
      (make_games pairs = None ↔
       Forall (λ B, four_players A B →
                    make_games (not_in_game A B pairs) = None) pairs))
  ∧ @None (list Game) ≠ Some []
  ∧ ((make_games pairs = None ∧ ∀ games, make_games pairs ≠ Some games)
     ∨ (make_games pairs ≠ None ∧ ∃ games, make_games pairs = Some games)).
Proof.
  split_and!.
  - intros Hlen. rewrite make_games_unfold.
    by destruct pairs as [|? [|??]]; simpl in *; try lia.
  - intros A rest -> Hrest. rewrite make_games_unfold.
    destruct rest as [|A' rest]; [done|]. apply try_partners_None.
  - done.
  - destruct (make_games pairs) as [gs|]; [right|left]; split; eauto; done.
Qed.

Lemma make_games_no_match_witness :
  make_games [(0, 1); (0, 2); (1, 2)] = None
  ∧ make_games [(0, 1)] = Some [].
Proof.
  split.
  - apply (proj1 (proj2 (make_games_no_match [(0, 1); (0, 2); (1, 2)]))
             (0, 1) [(0, 2); (1, 2)] eq_refl); [done|].
    repeat constructor; by vm_compute.
  - apply (proj1 (make_games_no_match [(0, 1)])). simpl. lia.
Defined.

(** ** [schedule] *)

Lemma disjoint_spec (X Y : gset Player) : disjoint X Y ↔ X ## Y.
Proof. unfold disjoint. by rewrite bool_decide_spec, disjoint_intersection_L. Qed.

Lemma players_round_snoc (round : list Game) (g : Game) :
  players_round (round ++ [g]) = players_round round ∪ players_game g.
Proof.
  unfold players_round. rewrite fmap_app, union_list_app_L. simpl.
  by rewrite (right_id_L ∅ (∪)).
Qed.

Lemma players_game_round (round : list Game) (g : Game) :
  g ∈ round → players_game g ⊆ players_round round.
Proof.
  intros Hg x Hx. unfold players_round. apply elem_of_union_list.
  exists (players_game g). split; [by apply list_elem_of_fmap_2|done].
Qed.

Lemma player_disjoint_nil : player_disjoint [].
Proof. by intros i j g1 g2 _ ?. Qed.

Lemma player_disjoint_snoc (round : list Game) (g : Game) :
  player_disjoint round → players_round round ## players_game g →
  player_disjoint (round ++ [g]).
Proof.
  intros Hround Hg i j g1 g2 Hij Hi Hj.
  assert (∀ k g', (round ++ [g]) !! k = Some g' →
            (round !! k = Some g' ∧ g' ∈ round)
            ∨ (k = length round ∧ g' = g)) as Hcases.
  { intros k g' Hk. apply lookup_app_Some in Hk as [Hk|[Hlen Hk]].
    - left. split; [done|]. by eapply list_elem_of_lookup_2.
    - right. apply list_lookup_singleton_Some in Hk as [? ->]. split; [lia|done]. }
  destruct (Hcases _ _ Hi) as [[Hi' Hin1]|[-> ->]],
           (Hcases _ _ Hj) as [[Hj' Hin2]|[-> ->]].
  - by apply (Hround i j).
  - apply players_game_round in Hin1. intros x Hx1 Hx2.
    apply (Hg x); [by apply Hin1|done].
  - apply players_game_round in Hin2. intros x Hx1 Hx2.
    apply (Hg x); [by apply Hin2|done].
  - done.
Qed.

Section schedule_facts.
Context {A : Type} (val : A → Game).
Implicit Types (round games rest kept : list A) (courts : Z).

Lemma fill_round_cons courts game rest round games :
  fill_round val courts (game :: rest) round games =
    if can_place val courts round game then
      match list_remove val (val game) games with
      | Some games' => fill_round val courts rest (round ++ [game]) games'
      | None => Raise ValueError
      end
    else fill_round val courts rest round games.
Proof. done. Qed.

(** What was refused by a round is refused by a longer round. *)
Lemma can_place_snoc courts round g x :
  can_place val courts (round ++ [g]) x → can_place val courts round x.
Proof.
  unfold can_place. rewrite !andb_True, !bool_decide_spec, !disjoint_spec.
  rewrite length_app, fmap_app. change (val <$> [g]) with [val g].
  rewrite players_round_snoc. simpl.
  intros [Hlen Hdisj]. split; [lia|].
  intros p Hp1 Hp2. apply (Hdisj p); [|done]. apply elem_of_union. by left.
Qed.

(** Items of equal value are placed, or refused, together. *)
Lemma can_place_val courts round x y :
  val x = val y → can_place val courts round x = can_place val courts round y.
Proof. unfold can_place. by intros ->. Qed.

Lemma list_remove_middle kept game rest :
  Forall (λ k, val k ≠ val game) kept →
  list_remove val (val game) (kept ++ game :: rest) = Some (kept ++ rest).
Proof.
  induction 1 as [|k kept Hk _ IH]; simpl.
  - by rewrite decide_True.
  - by rewrite decide_False, IH.
Qed.

(** One pass of the [for] loop: [kept] are the games refused so far, and
    [rest] the games still to come; the pass splits [rest] into the
    games it places and the games it keeps. *)
Lemma fill_round_spec courts rest kept round :
  Forall (λ k, ¬ can_place val courts round k) kept →
  ∃ placed kept',
    fill_round val courts rest round (kept ++ rest)
      = Ret (round ++ placed, kept ++ kept')
    ∧ rest ≡ₚ placed ++ kept'
    ∧ (Z.of_nat (length round) ≤ courts →
       Z.of_nat (length (round ++ placed)) ≤ courts)
    ∧ (player_disjoint (val <$> round) →
       player_disjoint (val <$> round ++ placed))
    ∧ (round = [] → 1 ≤ courts → rest ≠ [] → placed ≠ []).
Proof.
  revert kept round. induction rest as [|game rest IH]; intros kept round Hkept.
  { exists [], []. rewrite !app_nil_r. done. }
  rewrite fill_round_cons. destruct (can_place val courts round game) eqn:Hplace.
  - rewrite list_remove_middle; last first.
    { eapply Forall_impl; [exact Hkept|]. intros k Hk Hval. simpl in *.
      rewrite (can_place_val _ _ _ _ Hval), Hplace in Hk. by apply Hk. }
    destruct (IH kept (round ++ [game])) as (placed & kept' & Hfill & Hperm & Hlen & Hdisj & _).
    { eapply Forall_impl; [exact Hkept|]. intros k Hk Hk'. simpl in *.
      by apply Hk, (can_place_snoc _ _ game). }
    rewrite <-(assoc (++)) in Hfill, Hlen, Hdisj. cbn [app] in Hfill, Hlen, Hdisj.
    exists (game :: placed), kept'. rewrite Hfill.
    split_and!; [done|by rewrite Hperm| | |done].
    + intros _. apply Hlen. unfold can_place in Hplace.
      apply andb_prop in Hplace as [Hlt%bool_decide_eq_true _].
      rewrite length_app. simpl. lia.
    + intros Hround. apply Hdisj. rewrite fmap_app. simpl.
      apply player_disjoint_snoc; [done|].
      unfold can_place in Hplace.
      by apply andb_prop in Hplace as [_ Hd%Is_true_true%disjoint_spec].
  - destruct (IH (kept ++ [game]) round) as (placed & kept' & Hfill & Hperm & Hlen & Hdisj & _).
    { apply Forall_app. split; [done|]. constructor; [|done].
      simpl. rewrite Hplace. by intros []. }
    rewrite <-(assoc (++)) in Hfill. simpl in Hfill.
    exists placed, (game :: kept'). rewrite Hfill, <-(assoc (++)). simpl.
    split_and!; [done|by rewrite Hperm, Permutation_middle|done|done|].
    intros -> Hcourts _. exfalso.
    unfold can_place, disjoint, players_round in Hplace. simpl in Hplace.
    rewrite bool_decide_eq_true_2 in Hplace by lia.
    rewrite bool_decide_eq_true_2 in Hplace by set_solver. done.
Qed.

Lemma fill_round_full courts rest round games :
  courts ≤ Z.of_nat (length round) →
  fill_round val courts rest round games = Ret (round, games).
Proof.
  intros Hfull. induction rest as [|game rest IH]; [done|].
  rewrite fill_round_cons. unfold can_place.
  by rewrite bool_decide_eq_false_2 by lia.
Qed.

(** The [while] loop of [schedule]: whenever it ends, the rounds it adds
    hold the games it was given. *)
Lemma schedule_loop_Ret fuel courts games sched s :
  schedule_loop val fuel courts games sched = Ret s →
  ∃ rounds, s = sched ++ rounds ∧ concat rounds ≡ₚ games.
Proof.
  revert games sched. induction fuel as [|fuel IH]; intros games sched.
  - destruct games; [|done]. intros [= <-]. exists []. by rewrite app_nil_r.
  - destruct games as [|g games]; [intros [= <-]; exists []; by rewrite app_nil_r|].
    cbn [schedule_loop].
    destruct (fill_round_spec courts (g :: games) [] []) as
      (placed & kept' & Hfill & Hperm & _); [constructor|].
    cbn [app] in Hfill. rewrite Hfill. simpl.
    intros (rounds & -> & Hrounds)%IH.
    exists (placed :: rounds). rewrite <-(assoc (++)). split; [done|].
    simpl. by rewrite Hrounds, Hperm.
Qed.

(** With a court to play on, every round places a game, and the loop
    ends after at most as many rounds as there are games. *)
Lemma schedule_loop_spec fuel courts games sched :
  1 ≤ courts → (length games ≤ fuel)%nat →
  ∃ rounds,
    schedule_loop val fuel courts games sched = Ret (sched ++ rounds)
    ∧ concat rounds ≡ₚ games
    ∧ Forall (round_ok val courts) rounds.
Proof.
  intros Hcourts. revert games sched.
  induction fuel as [|fuel IH]; intros games sched Hfuel.
  - destruct games; [|simpl in *; lia]. exists []. by rewrite app_nil_r.
  - destruct games as [|g games]; [exists []; by rewrite app_nil_r|].
    cbn [schedule_loop].
    destruct (fill_round_spec courts (g :: games) [] []) as
      (placed & kept' & Hfill & Hperm & Hlen & Hdisj & Hne); [constructor|].
    cbn [app fmap list_fmap length] in Hfill, Hlen, Hdisj. rewrite Hfill. simpl.
    specialize (Hne eq_refl Hcourts ltac:(done)).
    destruct (IH kept' (sched ++ [placed])) as (rounds & -> & Hrounds & Hok).
    { apply Permutation_length in Hperm. rewrite length_app in Hperm.
      destruct placed; [done|]. simpl in *. lia. }
    exists (placed :: rounds). rewrite <-(assoc (++)).
    split_and!; [done|simpl; by rewrite Hrounds, Hperm|].
    constructor; [|done]. split_and!; [done|apply Hlen; simpl; lia|].
    apply Hdisj, player_disjoint_nil.
Qed.

(** Without a court no game is ever placed: the loop does not end. *)
Lemma schedule_loop_diverges fuel courts games sched :
  courts < 1 → games ≠ [] →
  schedule_loop val fuel courts games sched = Diverges.
Proof.
  intros Hcourts. revert sched. induction fuel as [|fuel IH]; intros sched Hgames.
  - by destruct games.
  - destruct games as [|g games]; [done|]. cbn [schedule_loop].
    rewrite fill_round_full by (simpl; lia). simpl. by apply IH.
Qed.

Lemma schedule_loop_more_fuel fuel fuel' courts games sched s :
  schedule_loop val fuel courts games sched = Ret s → (fuel ≤ fuel')%nat →
  schedule_loop val fuel' courts games sched = Ret s.
Proof.
  revert fuel' games sched. induction fuel as [|fuel IH]; intros fuel' games sched.
  - destruct games; [|done]. intros [= <-] _. by destruct fuel'.
  - destruct games as [|g games]; [intros [= <-] _; by destruct fuel'|].
    intros Hloop Hfuel. destruct fuel' as [|fuel']; [lia|].
    cbn [schedule_loop] in *.
    destruct (fill_round val courts (g :: games) [] (g :: games))
      as [[round games']| |]; simpl in *; [|done..].
    apply IH; [done|lia].
Qed.

Lemma schedule_on_spec courts games :
  1 ≤ courts →
  ∃ rounds,
    schedule_on val games courts = Ret rounds
    ∧ concat rounds ≡ₚ games
    ∧ Forall (round_ok val courts) rounds.
Proof.
  intros Hcourts. by apply (schedule_loop_spec _ courts games []).
Qed.

Lemma schedule_on_Ret courts games s :
  schedule_on val games courts = Ret s → concat s ≡ₚ games.
Proof. by intros (rounds & -> & Hrounds)%schedule_loop_Ret. Qed.

Lemma schedule_on_diverges courts games :
  courts < 1 → games ≠ [] → schedule_on val games courts = Diverges.
Proof. apply schedule_loop_diverges. Qed.

(** The outcomes of [schedule]: it returns when there is a court or no
    game, and runs forever otherwise. *)
Lemma schedule_on_outcome courts games :
  (1 ≤ courts ∨ games = [] → returns (schedule_on val games courts))
  ∧ (courts < 1 ∧ games ≠ [] →
     ∀ fuel, schedule_loop val fuel courts games [] = Diverges).
Proof.
  split.
  - intros [Hcourts| ->]; [|by exists []].
    destruct (schedule_on_spec courts games Hcourts) as (s & Hs & _).
    by exists s.
  - intros [Hcourts Hgames] fuel. by apply schedule_loop_diverges.
Qed.
End schedule_facts.

(** C5: for every list of games (well-formed or not) and [courts ≥ 1],
    [schedule] returns rounds that hold the games of the input, each
    occurrence once; a game of an input without duplicates is in exactly
    one round.  In every round no two games share a player, and there are
    between 1 and [courts] games. *)
Theorem schedule_rounds (games : list Game) (courts : Z) :
  1 ≤ courts →
  ∃ rounds,
    schedule games courts = Ret rounds
    ∧ concat rounds ≡ₚ games
    ∧ (NoDup games →
       ∀ g, g ∈ games → length (filter (λ round, g ∈ round) rounds) = 1%nat)
    ∧ Forall (λ round, player_disjoint round
                       ∧ Z.of_nat (length round) ≤ courts
                       ∧ round ≠ []) rounds.
Proof.
  intros Hcourts.
  destruct (schedule_on_spec id courts games Hcourts) as (rounds & Hs & Hperm & Hok).
  exists rounds. split_and!; [done|done| |].
  - intros Hnd g Hg. rewrite <-Hperm in Hnd, Hg. rewrite concat_bind in Hnd, Hg.
    by apply (filter_holders_one id).
  - eapply Forall_impl; [exact Hok|]. intros round (Hne & Hlen & Hdisj). simpl.
    by rewrite list_fmap_id in Hdisj.
Qed.

Lemma schedule_rounds_witness :
  1 ≤ 2 ∧
  ∃ rounds,
    schedule [((0,1),(2,3)); ((0,2),(1,3)); ((4,5),(6,7))] 2 = Ret rounds
    ∧ concat rounds ≡ₚ [((0,1),(2,3)); ((0,2),(1,3)); ((4,5),(6,7))]
    ∧ (NoDup [((0,1),(2,3)); ((0,2),(1,3)); ((4,5),(6,7))] →
       ∀ g, g ∈ [((0,1),(2,3)); ((0,2),(1,3)); ((4,5),(6,7))] →
         length (filter (λ round, g ∈ round) rounds) = 1%nat)
    ∧ Forall (λ round, player_disjoint round
                       ∧ Z.of_nat (length round) ≤ 2
                       ∧ round ≠ []) rounds.
Proof. split; [lia|]. apply schedule_rounds. lia. Defined.

(** ** [schedule] and the store *)

Section schedule_store_facts.
Context {A : Type} (val : A → Game).
Implicit Types (h : gmap nat (list A)) (games round : list A).

Lemma fill_round_st_refines courts snapshot round l h games :
  h !! l = Some games →
  fill_round_st val courts snapshot round l h
  = (λ rg, (rg.1, <[l := rg.2]> h)) <$> fill_round val courts snapshot round games.
Proof.
  revert round h games.
  induction snapshot as [|game rest IH]; intros round h games Hl; simpl.
  { by rewrite insert_id. }
  rewrite (lookup_total_correct _ _ _ Hl).
  destruct (_ && _); [|by apply IH].
  destruct (list_remove val (val game) games) as [games'|]; [|done].
  rewrite (IH _ _ games') by apply lookup_insert_eq.
  destruct (fill_round val courts rest (round ++ [game]) games')
    as [[r g']| |]; simpl; [|done..].
  by rewrite insert_insert_eq.
Qed.

Lemma schedule_loop_st_refines fuel courts l h games sched :
  h !! l = Some games →
  schedule_loop_st val fuel courts l h sched
  = (λ s, (s, <[l := []]> h)) <$> schedule_loop val fuel courts games sched.
Proof.
  revert h games sched.
  induction fuel as [|fuel IH]; intros h games sched Hl; simpl;
    rewrite (lookup_total_correct _ _ _ Hl).
  - destruct games; [|done]. simpl. by rewrite insert_id.
  - destruct games as [|g games]; [simpl; by rewrite insert_id|].
    rewrite (fill_round_st_refines _ _ _ _ _ (g :: games)) by done.
    destruct (fill_round val courts (g :: games) [] (g :: games))
      as [[r g']| |]; simpl; [|done..].
    rewrite (IH _ g') by apply lookup_insert_eq.
    destruct (schedule_loop val fuel courts g' (sched ++ [r])); simpl; [|done..].
    by rewrite insert_insert_eq.
Qed.

(** A call of [schedule] on a list object computes the rounds of
    [schedule_on] and leaves behind the store it found, with one more
    list, which is empty. *)
Lemma schedule_st_refines h arg courts games :
  h !! arg = Some games →
  schedule_st val h arg courts
  = (λ s, (s, <[fresh (dom h) := []]> h)) <$> schedule_on val games courts.
Proof.
  intros Harg. unfold schedule_st, schedule_on.
  rewrite (lookup_total_correct _ _ _ Harg), lookup_total_insert_eq.
  rewrite (schedule_loop_st_refines _ _ _ _ games) by apply lookup_insert_eq.
  destruct (schedule_loop val (length games) courts games []); simpl; [|done..].
  by rewrite insert_insert_eq.
Qed.
End schedule_store_facts.

(** C9: [schedule] does not change its input.  When a call of
    [schedule] on the list object at [arg] returns, that object holds
    the same games in the same order as before, and so does every other
    list that was in the store; the rounds returned are those of
    [schedule games courts]. *)
Theorem schedule_keeps_input (h h' : gmap nat (list Game)) (arg : nat)
    (games : list Game) (courts : Z) (rounds : Schedule) :
  h !! arg = Some games →
  schedule_st id h arg courts = Ret (rounds, h') →
  h' !! arg = Some games
  ∧ (∀ a, a ∈ dom h → h' !! a = h !! a)
  ∧ schedule games courts = Ret rounds.
Proof.
  intros Harg. rewrite (schedule_st_refines _ _ _ _ games Harg).
  intros (s & Hs & [= -> ->])%fmap_Ret.
  assert (∀ a, a ∈ dom h → (<[fresh (dom h) := []]> h) !! a = h !! a) as Hframe.
  { intros a Ha. apply lookup_insert_ne. intros <-. by apply is_fresh in Ha. }
  split_and!; [|done|done].
  rewrite Hframe; [done|]. by apply elem_of_dom.
Qed.

Lemma schedule_keeps_input_witness :
  let games := [((0,1),(2,3)); ((0,2),(1,3)); ((4,5),(6,7))] in
  let h : gmap nat (list Game) := {[ 7%nat := games ]} in
  ∃ rounds h',
    schedule_st id h 7 2 = Ret (rounds, h')
    ∧ h' !! 7%nat = Some games
    ∧ (∀ a, a ∈ dom h → h' !! a = h !! a)
    ∧ schedule games 2 = Ret rounds.
Proof.
  intros games h.
  destruct (schedule_st id h 7 2) as [[rounds h']| |] eqn:Hrun;
    [|by vm_compute in Hrun..].
  exists rounds, h'. split; [done|].
  by apply (schedule_keeps_input h h' 7 games 2 rounds).
Defined.

(** ** [Counter], [opponents] and [opp_difference] *)

Lemma Counter_foldl (keys : list Pair) (c : gmap Pair nat) (k : Pair) :
  default 0%nat
    (foldl (λ c k, <[k := S (default 0%nat (c !! k))]> c) c keys !! k)
  = (default 0%nat (c !! k) + length (filter (λ x, x = k) keys))%nat.
Proof.
  revert c. induction keys as [|x keys IH]; intros c; simpl; [lia|].
  rewrite IH, filter_cons. destruct (decide (x = k)) as [->|Hne].
  - rewrite lookup_insert_eq. simpl. lia.
  - by rewrite lookup_insert_ne.
Qed.

(** A counter reads the number of times that a key was counted. *)
Lemma count_Counter (keys : list Pair) (k : Pair) :
  count (Counter keys) k = Z.of_nat (length (filter (λ x, x = k) keys)).
Proof. unfold count, Counter. by rewrite Counter_foldl, lookup_empty. Qed.

Lemma count_Counter_absent (keys : list Pair) (k : Pair) :
  k ∉ keys → count (Counter keys) k = 0.
Proof.
  intros Hk. rewrite count_Counter.
  induction keys as [|x keys IH]; [done|].
  apply not_elem_of_cons in Hk as [Hx Hk].
  rewrite filter_cons, decide_False by done. by apply IH.
Qed.

Global Instance Counter_Permutation k :
  Proper ((≡ₚ) ==> (=)) (λ keys, count (Counter keys) k).
Proof. intros k1 k2 Hk. by rewrite !count_Counter, Hk. Qed.

Lemma sum_app (l1 l2 : list Z) : sum (l1 ++ l2) = sum l1 + sum l2.
Proof. induction l1 as [|x l1 IH]; simpl; lia. Qed.

Lemma sum_nonneg (l : list Z) : Forall (λ x, 0 ≤ x) l → 0 ≤ sum l.
Proof. induction 1; simpl; lia. Qed.

Lemma sum_zero (l : list Z) :
  Forall (λ x, 0 ≤ x) l → sum l = 0 ↔ Forall (λ x, x = 0) l.
Proof.
  induction 1 as [|x l Hx Hl IH]; simpl.
  - split; [constructor|done].
  - pose proof (sum_nonneg l Hl). rewrite Forall_cons, <-IH. lia.
Qed.

Lemma abs_cube_nonneg (x : Z) : 0 ≤ Z.abs x ^ 3.
Proof. apply Z.pow_nonneg. lia. Qed.

Lemma abs_cube_zero (x : Z) : Z.abs x ^ 3 = 0 ↔ x = 0.
Proof. rewrite Z.pow_eq_0_iff. lia. Qed.

Lemma opp_difference_app games l1 l2 optimal :
  opp_difference games (l1 ++ l2) optimal
  = opp_difference games l1 optimal + opp_difference games l2 optimal.
Proof. unfold opp_difference. by rewrite fmap_app, sum_app. Qed.

Lemma opp_difference_nonneg games pairs optimal :
  0 ≤ opp_difference games pairs optimal.
Proof.
  apply sum_nonneg, Forall_fmap, Forall_forall. intros pair _.
  apply abs_cube_nonneg.
Qed.

(** C6: [opp_difference games pairs optimal] is 0 iff every pair of
    [pairs] has the tally [optimal] in the counter [opponents games]; the
    tally of a pair is the number of times it stands on opposite sides of
    a game, and a pair of [pairs] that never does adds [|0 - optimal|³] to
    the sum, which is 8 for [optimal = 2]. *)
Theorem opp_difference_zero (games : list Game) (pairs : list Pair)
    (optimal : Z) :
  (opp_difference games pairs optimal = 0 ↔
   ∀ pair, pair ∈ pairs → count (opponents games) pair = optimal)
  ∧ (∀ pair, count (opponents games) pair
             = Z.of_nat (length (filter (λ x, x = pair) (oppositions games))))
  ∧ (∀ l1 pair l2, pairs = l1 ++ pair :: l2 → pair ∉ oppositions games →
       opp_difference games pairs optimal
       = opp_difference games (l1 ++ l2) optimal + Z.abs (0 - optimal) ^ 3)
  ∧ Z.abs (0 - 2) ^ 3 = 8.
Proof.
  split_and!; [| |
    |done].
  - unfold opp_difference. rewrite sum_zero.
    + rewrite Forall_fmap, Forall_forall. apply forall_proper. intros pair.
      simpl. rewrite abs_cube_zero. apply forall_proper. lia.
    + apply Forall_fmap, Forall_forall. intros pair _. apply abs_cube_nonneg.
  - intros pair. apply count_Counter.
  - intros l1 pair l2 -> Hpair. rewrite !opp_difference_app.
    change (pair :: l2) with ([pair] ++ l2). rewrite opp_difference_app.
    unfold opp_difference at 2. simpl. unfold opponents.
    rewrite count_Counter_absent by done. lia.
Qed.

Lemma opp_difference_zero_witness :
  Forall (λ pair,
    count (opponents [((0,1),(2,3)); ((0,2),(1,4)); ((0,3),(2,4));
                      ((0,4),(1,3)); ((1,2),(3,4))]) pair = 2)
    (all_pairs 5)
  ∧ opp_difference [((0,1),(2,3))] [(0,2); (0,1)] 2
    = opp_difference [((0,1),(2,3))] ([(0,2)] ++ []) 2 + Z.abs (0 - 2) ^ 3.
Proof.
  split.
  - apply Forall_forall.
    apply (proj1 (proj1 (opp_difference_zero _ (all_pairs 5) 2))).
    by vm_compute.
  - apply (proj1 (proj2 (proj2 (opp_difference_zero _ _ 2))) [(0,2)] (0,1) []);
      [done|].
    vm_compute. by intros ?%list_elem_of_In%(bool_decide_pack _).
Defined.

(** ** Schedules of game objects *)

Section schedule_fmap.
Context {A B : Type} (valA : A → Game) (valB : B → Game) (f : A → B).
Context (Hval : ∀ x, valB (f x) = valA x).

Lemma list_remove_fmap (game : Game) (games : list A) :
  list_remove valB game (f <$> games)
  = fmap (M:=list) f <$> list_remove valA game games.
Proof using Hval.
  induction games as [|x games IH]; [done|].
  cbn [list_remove fmap list_fmap]. rewrite Hval.
  destruct (decide (valA x = game)); [done|].
  change (list_fmap A B f games) with (f <$> games). rewrite IH.
  by destruct (list_remove valA game games).
Qed.

Lemma fill_round_fmap courts (snapshot round games : list A) :
  fill_round valB courts (f <$> snapshot) (f <$> round) (f <$> games)
  = (λ rg : list A * list A, (f <$> rg.1, f <$> rg.2))
      <$> fill_round valA courts snapshot round games.
Proof using Hval.
  revert round games.
  induction snapshot as [|game rest IH]; intros round games; [done|].
  rewrite fmap_cons, !fill_round_cons.
  assert (can_place valB courts (f <$> round) (f game)
          = can_place valA courts round game) as ->.
  { unfold can_place. rewrite length_fmap, Hval, <-list_fmap_compose.
    do 3 f_equal. apply list_fmap_ext. intros ? x ?. apply Hval. }
  destruct (can_place valA courts round game); [|apply IH].
  rewrite Hval, list_remove_fmap.
  destruct (list_remove valA (valA game) games) as [games'|]; [|done].
  simpl. rewrite <-IH, fmap_app. done.
Qed.

Lemma schedule_loop_fmap fuel courts (games : list A) (sched : list (list A)) :
  schedule_loop valB fuel courts (f <$> games) (fmap (M:=list) f <$> sched)
  = fmap (M:=list) (fmap (M:=list) f) <$> schedule_loop valA fuel courts games sched.
Proof using Hval.
  revert games sched.
  induction fuel as [|fuel IH]; intros games sched; [by destruct games|].
  destruct games as [|g games]; [done|].
  rewrite fmap_cons. cbn [schedule_loop].
  pose proof (fill_round_fmap courts (g :: games) [] (g :: games)) as Hfill.
  rewrite !fmap_cons, fmap_nil in Hfill. rewrite Hfill.
  destruct (fill_round valA courts (g :: games) [] (g :: games))
    as [[round games']| |]; simpl; [|done..].
  rewrite <-IH, fmap_app. done.
Qed.

Lemma schedule_on_fmap courts (games : list A) :
  schedule_on valB (f <$> games) courts
  = fmap (M:=list) (fmap (M:=list) f) <$> schedule_on valA games courts.
Proof using Hval.
  unfold schedule_on. rewrite length_fmap.
  apply (schedule_loop_fmap _ _ _ []).
Qed.
End schedule_fmap.

Lemma objects_contents (games : list Game) :
  (λ r, games !!! r) <$> seq 0 (length games) = games.
Proof.
  apply list_eq. intros i. rewrite list_lookup_fmap.
  destruct (games !! i) as [g|] eqn:Hi.
  - rewrite lookup_seq_lt by (by eapply lookup_lt_Some). simpl.
    by rewrite (list_lookup_total_correct _ _ _ Hi).
  - rewrite lookup_seq_ge; [done|]. by apply lookup_ge_None.
Qed.

(** The schedule of the game objects shows the schedule of the games. *)
Lemma schedule_objects_contents (games : list Game) (courts : Z) :
  schedule games courts
  = contents games <$> schedule_objects games courts.
Proof.
  unfold schedule, schedule_objects.
  rewrite <-(objects_contents games) at 1.
  by rewrite (schedule_on_fmap (λ r, games !!! r) id (λ r, games !!! r)).
Qed.

Lemma schedule_objects_Ret (games : list Game) (courts : Z) s :
  schedule_objects games courts = Ret s →
  schedule games courts = Ret (contents games s)
  ∧ length (contents games s) = length s
  ∧ concat (contents games s) ≡ₚ games.
Proof.
  intros Hs. assert (schedule games courts = Ret (contents games s)) as Hs'.
  { by rewrite schedule_objects_contents, Hs. }
  split_and!; [done|apply length_map|]. by eapply schedule_on_Ret.
Qed.

Lemma schedule_objects_returns (games : list Game) (courts : Z) :
  1 ≤ courts → returns (schedule_objects games courts).
Proof. intros Hcourts. by apply schedule_on_outcome; left. Qed.

(** ** [swap] *)

Lemma getitem_Ret {X} (l : list X) (i : nat) (x : X) :
  getitem l i = Ret x ↔ l !! i = Some x.
Proof. unfold getitem. destruct (l !! i); naive_solver. Qed.

Lemma getitem_lt {X} (l : list X) (i : nat) :
  (i < length l)%nat → returns (getitem l i).
Proof.
  intros [x Hx]%lookup_lt_is_Some. exists x. by apply getitem_Ret.
Qed.

Lemma swap_Ret_inv games g1 g2 a b games' :
  swap games ((g1, g2), (a, b)) = Ret games' →
  ∃ G1 G2 x y G1' G2'' G2',
    games !! g1 = Some G1 ∧ games !! g2 = Some G2
    ∧ side G2 b = Ret x ∧ side G1 a = Ret y ∧ set_side G1 a x = Ret G1'
    ∧ <[g1 := G1']> games !! g2 = Some G2'' ∧ set_side G2'' b y = Ret G2'
    ∧ games' = <[g2 := G2']> (<[g1 := G1']> games).
Proof.
  unfold swap.
  intros (G2 & HG2%getitem_Ret & (x & Hx & (G1 & HG1%getitem_Ret & (y & Hy &
    (G1' & HG1' & (G2'' & HG2''%getitem_Ret & (G2' & HG2' & [= <-]
    )%bind_Ret)%bind_Ret)%bind_Ret)%bind_Ret)%bind_Ret)%bind_Ret)%bind_Ret.
  by exists G1, G2, x, y, G1', G2'', G2'.
Qed.

Lemma insert_Permutation_cons {X} (l : list X) (i : nat) (x y : X) :
  l !! i = Some x → x :: <[i := y]> l ≡ₚ y :: l.
Proof.
  revert i. induction l as [|z l IH]; intros [|i] Hi; simplify_eq/=.
  - apply Permutation_swap.
  - rewrite (Permutation_swap z x), (IH i Hi). apply Permutation_swap.
Qed.

(** Breaks the sides [a], [b] and the two games of a swap into cases. *)
Ltac swap_cases a b G1 G2 :=
  destruct a as [|[|a]], b as [|[|b]], G1 as [? ?], G2 as [? ?];
  simplify_eq/=.

(** A swap exchanges two pairs: the games hold the same pairs after it. *)
Lemma swap_pairs_of games idx games' :
  swap games idx = Ret games' →
  pairs_of games' ≡ₚ pairs_of games ∧ length games' = length games.
Proof.
  destruct idx as [[g1 g2] [a b]].
  intros (G1 & G2 & x & y & G1' & G2'' & G2' & HG1 & HG2 & Hx & Hy & HG1'
          & HG2'' & HG2' & ->)%swap_Ret_inv.
  split; [|by rewrite !length_insert].
  pose proof (insert_Permutation_cons games g1 G1 G1' HG1) as P1.
  pose proof (insert_Permutation_cons _ g2 G2'' G2' HG2'') as P2.
  assert (pairs_of (G1 :: G2'' :: <[g2 := G2']> (<[g1 := G1']> games))
          ≡ₚ pairs_of (G2' :: G1' :: games)) as Hall.
  { by rewrite P2, Permutation_swap, P1, Permutation_swap. }
  rewrite !pairs_of_cons in Hall.
  apply (Permutation_app_inv_l [G1.1; G1.2; G2''.1; G2''.2]).
  cbn [app]. rewrite Hall. cbn [app].
  cut ([G2'.1; G2'.2; G1'.1; G1'.2] ≡ₚ [G1.1; G1.2; G2''.1; G2''.2]).
  { intros Hlocal.
    change ([G2'.1; G2'.2; G1'.1; G1'.2] ++ pairs_of games
            ≡ₚ [G1.1; G1.2; G2''.1; G2''.2] ++ pairs_of games).
    by rewrite Hlocal. }
  destruct (decide (g1 = g2)) as [->|Hne].
  - rewrite list_lookup_insert_eq in HG2'' by (by eapply lookup_lt_Some).
    swap_cases a b G1 G2; solve_Permutation.
  - rewrite list_lookup_insert_ne in HG2'' by done.
    swap_cases a b G1 G2; solve_Permutation.
Qed.

(** Swapping again with the same indexes brings back the games. *)
Lemma swap_swap games idx games' :
  swap games idx = Ret games' → swap games' idx = Ret games.
Proof.
  destruct idx as [[g1 g2] [a b]].
  intros (G1 & G2 & x & y & G1' & G2'' & G2' & HG1 & HG2 & Hx & Hy & HG1'
          & HG2'' & HG2' & ->)%swap_Ret_inv.
  assert (g1 < length games)%nat as Hg1 by (by eapply lookup_lt_Some).
  assert (g2 < length games)%nat as Hg2 by (by eapply lookup_lt_Some).
  unfold swap, getitem.
  rewrite list_lookup_insert_eq by (by rewrite length_insert).
  destruct (decide (g1 = g2)) as [->|Hne].
  - rewrite list_lookup_insert_eq in HG2'' by done.
    rewrite !list_insert_insert_eq.
    rewrite list_lookup_insert_eq by done.
    swap_cases a b G1 G2;
      rewrite ?list_insert_insert_eq, ?list_lookup_insert_eq by done; simpl;
      rewrite ?list_insert_insert_eq; by rewrite list_insert_id.
  - rewrite list_lookup_insert_ne in HG2'' by done.
    rewrite list_lookup_insert_ne, list_lookup_insert_eq by done.
    swap_cases a b G1 G2;
      rewrite list_lookup_insert_ne, list_lookup_insert_eq
        by (done || by rewrite !length_insert); simpl.
    all: rewrite (list_insert_insert_ne _ g1 g2) by done.
    all: rewrite !list_insert_insert_eq.
    all: rewrite (list_insert_id _ g1) by done.
    all: by rewrite (list_insert_id _ g2).
Qed.

Lemma swap_returns games g1 g2 a b :
  (g1 < length games)%nat → (g2 < length games)%nat →
  (a < 2)%nat → (b < 2)%nat →
  returns (swap games ((g1, g2), (a, b))).
Proof.
  intros [G1 HG1]%lookup_lt_is_Some [G2 HG2]%lookup_lt_is_Some Ha Hb.
  assert (g1 < length games)%nat as Hg1 by (by eapply lookup_lt_Some).
  unfold swap, getitem. rewrite HG1, HG2. simpl.
  destruct (decide (g1 = g2)) as [->|Hne].
  - destruct a as [|[|a]], b as [|[|b]]; try lia; simpl;
      rewrite list_lookup_insert_eq by done; by eexists.
  - destruct a as [|[|a]], b as [|[|b]]; try lia; simpl;
      rewrite list_lookup_insert_ne, HG2 by done; by eexists.
Qed.

(** ** Trials *)

Section trial_facts.
Context {rng : Type} `{Random rng}.
Implicit Types (st : state rng) (g : rng).

Lemma keep_swap_true courts st games i j diff2 :
  keep_swap courts st games i j diff2 = Ret true →
  diff2 ≤ diff st
  ∧ ∃ s, schedule_objects games courts = Ret s
         ∧ (length s ≤ length (sched st))%nat.
Proof.
  unfold keep_swap. case_bool_decide as Hdiff; [|done].
  intros (s & Hs & Hkeep)%bind_Ret. case_bool_decide as Hlen; [|done].
  split; [done|]. by exists s.
Qed.

(** A trial either keeps the swapped games, with their schedule and
    cost, which are not worse, or goes back to the games before it. *)
Lemma trial_Ret courts pairs st st' :
  trial courts pairs st = Ret st' →
  ∃ idx games1,
    swap (games st) idx = Ret games1
    ∧ ((games st' = games1
        ∧ schedule_objects games1 courts = Ret (sched st')
        ∧ diff st' = opp_difference games1 pairs 2
        ∧ diff st' ≤ diff st
        ∧ (length (sched st') ≤ length (sched st))%nat)
       ∨ (games st' = games st ∧ sched st' = sched st ∧ diff st' = diff st)).
Proof.
  unfold trial.
  intros ([idx g] & Hidx & ([[i j] ab] & Hunpack & (games1 & Hswap
    & (keep & Hkeep & Hst')%bind_Ret)%bind_Ret)%bind_Ret)%bind_Ret.
  exists ((i, j), ab), games1. split; [done|]. destruct keep.
  - left. apply keep_swap_true in Hkeep as (Hdiff & s & Hs & Hlen).
    rewrite Hs in Hst'. simpl in Hst'. injection Hst' as <-. done.
  - right. apply swap_swap in Hswap. rewrite Hswap in Hst'.
    simpl in Hst'. injection Hst' as <-. done.
Qed.

Lemma trial_consistent courts pairs st st' :
  trial courts pairs st = Ret st' → consistent courts pairs st →
  consistent courts pairs st'
  ∧ diff st' ≤ diff st
  ∧ (length (sched st') ≤ length (sched st))%nat
  ∧ pairs_of (games st') ≡ₚ pairs_of (games st)
  ∧ length (games st') = length (games st).
Proof.
  intros (idx & games1 & Hswap & Hcases)%trial_Ret [Hdiff Hsched].
  destruct Hcases as [(Hg & Hs & Hd & Hle & Hlen)|(Hg & Hs & Hd)].
  - apply swap_pairs_of in Hswap as [Hpairs Hlength].
    split_and!; [|done|done|by rewrite Hg|by rewrite Hg].
    split; by rewrite Hg.
  - split_and!; [|lia|by rewrite Hs|by rewrite Hg|by rewrite Hg].
    split; by rewrite Hg, ?Hs, ?Hd.
Qed.

Lemma trials_consistent k courts pairs st st' :
  trials k courts pairs st = Ret st' → consistent courts pairs st →
  consistent courts pairs st'
  ∧ diff st' ≤ diff st
  ∧ (length (sched st') ≤ length (sched st))%nat
  ∧ pairs_of (games st') ≡ₚ pairs_of (games st)
  ∧ length (games st') = length (games st).
Proof.
  revert st. induction k as [|k IH]; intros st; simpl.
  - by intros [= <-] ?.
  - intros (st1 & Htrial & Hrest)%bind_Ret Hst.
    destruct (trial_consistent _ _ _ _ Htrial Hst) as (Hst1 & ? & ? & Hp1 & ?).
    destruct (IH _ Hrest Hst1) as (Hst' & ? & ? & Hp' & ?).
    split_and!; [done|lia|lia|by rewrite Hp'|lia].
Qed.

Lemma initial_Ret P courts g st :
  initial P courts g = Ret st →
  make_games (all_pairs P) = Some (games st)
  ∧ consistent courts (all_pairs P) st ∧ gen st = g.
Proof.
  unfold initial. destruct (make_games (all_pairs P)) as [games0|]; [|done].
  intros (s & Hs & [= <-])%bind_Ret. done.
Qed.

(** The state after any number of trials, against the first schedule *)
Lemma after_trials_Ret P courts k g st :
  after_trials P courts k g = Ret st →
  ∃ games0 sched0,
    make_games (all_pairs P) = Some games0
    ∧ schedule games0 courts = Ret sched0
    ∧ consistent courts (all_pairs P) st
    ∧ (length (sched st) ≤ length sched0)%nat
    ∧ diff st ≤ opp_difference games0 (all_pairs P) 2
    ∧ pairs_of (games st) ≡ₚ pairs_of games0.
Proof.
  intros (st0 & (Hgames & Hst0 & _)%initial_Ret & Htrials)%bind_Ret.
  destruct (trials_consistent _ _ _ _ _ Htrials Hst0) as (Hst & Hd & Hl & Hp & _).
  destruct Hst0 as [Hdiff0 Hsched0].
  destruct (schedule_objects_Ret _ _ _ Hsched0) as (Hs0 & Hlen0 & _).
  exists (games st0), (contents (games st0) (sched st0)).
  split_and!; [done|done|done|lia|lia|done].
Qed.
End trial_facts.

Lemma opp_difference_Permutation games1 games2 pairs optimal :
  games1 ≡ₚ games2 →
  opp_difference games1 pairs optimal = opp_difference games2 pairs optimal.
Proof.
  intros Hgames. unfold opp_difference, opponents. f_equal.
  apply list_fmap_ext. intros _ pair _. simpl.
  rewrite !count_Counter. unfold oppositions. by rewrite Hgames.
Qed.

Lemma pairs_of_concat_contents (games : list Game) (courts : Z) s :
  schedule_objects games courts = Ret s →
  concat (contents games s) ≡ₚ games.
Proof. by intros (_ & _ & ?)%schedule_objects_Ret. Qed.

(** ** Runs of [pickleball] that return *)

Section returns.
Context {rng : Type} {R : Random rng} {RL : RandomLaws rng}.
Implicit Types (st : state rng) (g : rng).

Lemma indexes_returns (games : list Game) g :
  (2 ≤ length games)%nat →
  ∃ i j a b g',
    indexes games g = Ret (([i; j], (a, b)), g')
    ∧ (i < length games)%nat ∧ (j < length games)%nat
    ∧ (a < 2)%nat ∧ (b < 2)%nat.
Proof using RL.
  intros Hlen. unfold indexes.
  destruct (random_sample_ok (seq 0 (length games)) 2 g)
    as (l & g1 & -> & Hl & Hsub); [by rewrite length_seq|].
  destruct (random_choice_ok sides g1) as ([a b] & g2 & Hchoice & Hab); [done|].
  simpl. rewrite Hchoice. simpl.
  destruct l as [|i [|j [|??]]]; try done.
  exists i, j, a, b, g2. split; [done|].
  assert (∀ x, x ∈ [i; j] → (x < length games)%nat) as Hin.
  { intros x Hx. eapply elem_of_submseteq in Hx; [|exact Hsub].
    apply elem_of_seq in Hx. lia. }
  split_and!; [apply Hin; set_solver|apply Hin; set_solver|..];
    unfold sides in Hab; set_unfold; naive_solver lia.
Qed.

Lemma indexes_small (games : list Game) g :
  (length games < 2)%nat → indexes games g = Raise ValueError.
Proof using RL.
  intros Hlen. unfold indexes.
  by rewrite random_sample_large by (by rewrite length_seq).
Qed.

Lemma trial_returns courts pairs st :
  1 ≤ courts → (2 ≤ length (games st))%nat →
  returns (trial courts pairs st).
Proof using RL.
  intros Hcourts Hlen. unfold trial.
  destruct (indexes_returns (games st) (gen st) Hlen)
    as (i & j & a & b & g' & -> & Hi & Hj & Ha & Hb).
  rewrite Ret_bind. unfold unpack. cbn [fst snd]. rewrite Ret_bind.
  destruct (swap_returns (games st) i j a b Hi Hj Ha Hb) as [games1 Hswap].
  rewrite Hswap, Ret_bind.
  apply swap_pairs_of in Hswap as Hlen1. destruct Hlen1 as [_ Hlen1].
  destruct (schedule_objects_returns games1 courts Hcourts) as [s Hs].
  assert (returns (keep_swap courts st games1 i j
                     (opp_difference games1 pairs 2))) as [keep ->].
  { unfold keep_swap. case_bool_decide; [|by eexists].
    rewrite Hs, Ret_bind. case_bool_decide; [|by eexists].
    destruct (getitem_lt games1 i) as [Gi ->]; [lia|]. rewrite Ret_bind.
    case_bool_decide; [|by eexists].
    destruct (getitem_lt games1 j) as [Gj ->]; [lia|]. rewrite Ret_bind.
    by eexists. }
  rewrite Ret_bind. destruct keep.
  - rewrite Hs. by eexists.
  - apply swap_swap in Hswap. rewrite Hswap. by eexists.
Qed.

Lemma trials_returns k courts pairs st :
  1 ≤ courts → (2 ≤ length (games st))%nat →
  returns (trials k courts pairs st).
Proof using RL.
  intros Hcourts. revert st. induction k as [|k IH]; intros st Hlen; simpl.
  - by exists st.
  - destruct (trial_returns courts pairs st Hcourts Hlen) as [st1 Hst1].
    rewrite Hst1. simpl. apply IH.
    apply trial_Ret in Hst1 as (idx & games1 & Hswap & Hcases).
    apply swap_pairs_of in Hswap as [_ Hlen1].
    destruct Hcases as [(-> & _)|(-> & _)]; lia.
Qed.

(** With at least 4 players and a court, every run returns. *)
Lemma pickleball_run_returns P courts N g :
  4 ≤ P → 1 ≤ courts → returns (pickleball_run P courts N g).
Proof using RL.
  intros HP Hcourts. unfold pickleball_run, initial.
  destruct (make_games_all_pairs_spec P HP) as (games0 & -> & _ & Hlen & _).
  destruct (schedule_objects_returns games0 courts Hcourts) as [s ->].
  simpl. apply trials_returns; [done|]. simpl.
  assert (3 ≤ P * (P - 1) / 4); [|lia].
  apply Z.div_le_lower_bound; nia.
Qed.

Lemma pickleball_returns P courts N g :
  4 ≤ P → 1 ≤ courts → returns (pickleball P courts N g).
Proof using RL.
  intros HP Hcourts. unfold pickleball.
  destruct (pickleball_run_returns P courts N g HP Hcourts) as [st ->].
  by eexists.
Qed.
End returns.

(** ** The generator of the examples follows the laws *)

Lemma Tape_randbelow_lt (n : nat) (g : Tape.rng) :
  (0 < n)%nat → ((Tape.randbelow n g).1 < n)%nat.
Proof.
  intros Hn. destruct g as [|x g]; simpl; [done|].
  apply Nat.mod_upper_bound. lia.
Qed.

Lemma Tape_sample_ok {A} (pool : list A) (k : nat) (g : Tape.rng) :
  (k ≤ length pool)%nat →
  ∃ l g', Tape.sample pool k g = Ret (l, g') ∧ length l = k ∧ l ⊆+ pool.
Proof.
  revert pool g. induction k as [|k IH]; intros pool g Hk; simpl.
  { exists [], g. split_and!; [done..|]. apply submseteq_nil_l. }
  pose proof (Tape_randbelow_lt (length pool) g ltac:(lia)) as Hj.
  destruct (Tape.randbelow (length pool) g) as [j g1]. simpl in Hj.
  destruct (lookup_lt_is_Some_2 pool j Hj) as [x Hx]. rewrite Hx.
  destruct (IH (delete j pool) g1) as (l & g' & -> & Hl & Hsub).
  { rewrite length_delete by done. lia. }
  exists (x :: l), g'. split_and!; [done|simpl; lia|].
  rewrite (delete_Permutation pool j x Hx). by apply submseteq_skip.
Qed.

Lemma Tape_sample_large {A} (pool : list A) (k : nat) (g : Tape.rng) :
  (length pool < k)%nat → Tape.sample pool k g = Raise ValueError.
Proof.
  revert pool g. induction k as [|k IH]; intros pool g Hk; simpl; [lia|].
  destruct (Tape.randbelow (length pool) g) as [j g1].
  destruct (pool !! j) as [x|] eqn:Hx; [|done].
  rewrite IH; [done|]. rewrite length_delete by done.
  apply lookup_lt_Some in Hx. lia.
Qed.

Global Instance Tape_laws : RandomLaws Tape.rng.
Proof.
  split.
  - intros A pop k g. apply Tape_sample_ok.
  - intros A pop k g. apply Tape_sample_large.
  - intros A l g Hl. simpl. unfold Tape.choice.
    pose proof (Tape_randbelow_lt (length l) g) as Hj.
    destruct (Tape.randbelow (length l) g) as [j g1]. simpl in Hj.
    destruct (lookup_lt_is_Some_2 l j) as [x Hx].
    { apply Hj. destruct l; [done|simpl; lia]. }
    rewrite Hx. exists x, g1. split; [done|]. by eapply list_elem_of_lookup_2.
  - intros A g. simpl. unfold Tape.choice.
    by destruct (Tape.randbelow (length []) g) as [[|j] g1].
Qed.

(** ** [pickleball] *)

Lemma pickleball_Ret {rng} {R : Random rng} (P courts N : Z) (g : rng) s :
  pickleball P courts N g = Ret s ↔
  ∃ st, after_trials P courts (Z.to_nat N) g = Ret st
        ∧ s = contents (games st) (sched st).
Proof.
  unfold pickleball. rewrite bind_Ret. apply exist_proper. intros st.
  unfold pickleball_run, after_trials. naive_solver.
Qed.

Lemma initial_16_4 :
  match make_games (all_pairs 16) with
  | Some games => length <$> schedule games 4
  | None => Raise TypeError
  end = Ret 15%nat.
Proof. vm_compute. reflexivity. Qed.

(** C1: the state after any number of trials of [pickleball] has a
    schedule with at most as many rounds as the first schedule
    [schedule (make_games (all_pairs P)) courts] and a cost [diff], the
    cost of its games, of at most the cost of the first games; so the
    schedule that [pickleball] returns has at most as many rounds, and
    its games at most the cost, of the first schedule.  With a generator
    that follows the laws, at least 4 players and a court, [pickleball]
    returns. *)
Theorem pickleball_never_worse {rng} {R : Random rng}
    (P courts N : Z) (g : rng) :
  (∀ (k : nat) st, after_trials P courts k g = Ret st →
    ∃ games0 sched0,
      make_games (all_pairs P) = Some games0
      ∧ schedule games0 courts = Ret sched0
      ∧ (length (sched st) ≤ length sched0)%nat
      ∧ diff st ≤ opp_difference games0 (all_pairs P) 2
      ∧ diff st = opp_difference (games st) (all_pairs P) 2
      ∧ schedule (games st) courts = Ret (contents (games st) (sched st)))
  ∧ (∀ s, pickleball P courts N g = Ret s →
    ∃ games0 sched0,
      make_games (all_pairs P) = Some games0
      ∧ schedule games0 courts = Ret sched0
      ∧ (length s ≤ length sched0)%nat
      ∧ opp_difference (concat s) (all_pairs P) 2
        ≤ opp_difference games0 (all_pairs P) 2)
  ∧ (RandomLaws rng → 4 ≤ P → 1 ≤ courts →
     returns (pickleball P courts N g)).
Proof.
  split_and!.
  - intros k st (games0 & sched0 & Hgames0 & Hsched0 & [Hdiff Hsched] & Hlen
                 & Hcost & _)%after_trials_Ret.
    exists games0, sched0. split_and!; [done..|].
    by apply schedule_objects_Ret in Hsched as [? _].
  - intros s (st & (games0 & sched0 & Hgames0 & Hsched0 & [Hdiff Hsched]
                    & Hlen & Hcost & _)%after_trials_Ret & ->)%pickleball_Ret.
    exists games0, sched0. split_and!; [done|done|..].
    + unfold contents. by rewrite length_map.
    + rewrite (opp_difference_Permutation _ (games st)); [lia|].
      by eapply pairs_of_concat_contents.
  - intros RL HP Hcourts. by apply pickleball_returns.
Qed.

Lemma pickleball_never_worse_witness :
  ∃ s games0 sched0,
    pickleball 8 2 1 ([0; 10; 0]%nat : Tape.rng) = Ret s
    ∧ make_games (all_pairs 8) = Some games0
    ∧ schedule games0 2 = Ret sched0
    ∧ (length s ≤ length sched0)%nat
    ∧ opp_difference (concat s) (all_pairs 8) 2
      ≤ opp_difference games0 (all_pairs 8) 2.
Proof.
  destruct (proj2 (proj2 (pickleball_never_worse 8 2 1
              ([0; 10; 0]%nat : Tape.rng))) _ ltac:(lia) ltac:(lia))
    as [s Hs].
  destruct (proj1 (proj2 (pickleball_never_worse 8 2 1
              ([0; 10; 0]%nat : Tape.rng))) s Hs)
    as (games0 & sched0 & H).
  exists s, games0, sched0. exact (conj Hs H).
Defined.

(** C7: for every [N] and every state of a generator that follows the
    laws, [pickleball 16 4 N] returns a schedule of at most 15 rounds; the
    first schedule [schedule (make_games (all_pairs 16)) 4] has 15 rounds,
    and no trial is kept that needs more. *)
Theorem pickleball_16_4 {rng} {R : Random rng} {RL : RandomLaws rng}
    (N : Z) (g : rng) :
  ∃ s games0 sched0,
    pickleball 16 4 N g = Ret s
    ∧ (length s ≤ 15)%nat
    ∧ make_games (all_pairs 16) = Some games0
    ∧ schedule games0 4 = Ret sched0
    ∧ length sched0 = 15%nat.
Proof.
  destruct (pickleball_returns 16 4 N g) as [s Hs]; [lia..|].
  apply pickleball_Ret in Hs as Hst.
  destruct Hst as (st & (games0 & sched0 & Hgames0 & Hsched0 & _ & Hlen & _
                        )%after_trials_Ret & Hcontents).
  pose proof initial_16_4 as H16. rewrite Hgames0, Hsched0 in H16.
  injection H16 as H16.
  exists s, games0, sched0. split_and!; [done| |done..].
  rewrite Hcontents. unfold contents. rewrite length_map. lia.
Qed.

Lemma pickleball_16_4_witness :
  ∃ s games0 sched0,
    pickleball 16 4 2 ([3; 41; 2; 17; 5; 1]%nat : Tape.rng) = Ret s
    ∧ (length s ≤ 15)%nat
    ∧ make_games (all_pairs 16) = Some games0
    ∧ schedule games0 4 = Ret sched0
    ∧ length sched0 = 15%nat.
Proof. apply (pickleball_16_4 (RL := Tape_laws)). Defined.

(** C10: a swap exchanges two pairs of the games and is undone by the
    same swap; a trial leaves the games as they were or as the swap made
    them; so after any number of trials the games hold the pairs of
    [make_games (all_pairs P)], each as often as there, and so do the
    games of the schedule that [pickleball] returns. *)
Theorem pickleball_keeps_pairs {rng} {R : Random rng}
    (P courts N : Z) (g : rng) :
  (∀ games idx games', swap games idx = Ret games' →
     pairs_of games' ≡ₚ pairs_of games ∧ swap games' idx = Ret games)
  ∧ (∀ pairs st st', trial courts pairs st = Ret st' →
       games st' = games st
       ∨ ∃ idx, swap (games st) idx = Ret (games st'))
  ∧ (∀ (k : nat) st, after_trials P courts k g = Ret st →
       ∃ games0, make_games (all_pairs P) = Some games0
                 ∧ pairs_of (games st) ≡ₚ pairs_of games0)
  ∧ (∀ s, pickleball P courts N g = Ret s →
       ∃ games0, make_games (all_pairs P) = Some games0
                 ∧ pairs_of (concat s) ≡ₚ pairs_of games0).
Proof.
  split_and!.
  - intros games idx games' Hswap. split; [|by apply swap_swap].
    by apply swap_pairs_of in Hswap as [? _].
  - intros pairs st st' (idx & games1 & Hswap & Hcases)%trial_Ret.
    destruct Hcases as [(-> & _)|(-> & _)]; [right|left]; eauto.
  - intros k st (games0 & _ & Hgames0 & _ & _ & _ & _ & Hpairs)%after_trials_Ret.
    by exists games0.
  - intros s (st & (games0 & _ & Hgames0 & _ & [_ Hsched] & _ & _ & Hpairs
                   )%after_trials_Ret & ->)%pickleball_Ret.
    exists games0. split; [done|].
    by rewrite (pairs_of_concat_contents _ _ _ Hsched).
Qed.

Lemma pickleball_keeps_pairs_witness :
  ∃ s games0,
    pickleball 8 2 2 ([0; 10; 0; 10; 0]%nat : Tape.rng) = Ret s
    ∧ make_games (all_pairs 8) = Some games0
    ∧ pairs_of (concat s) ≡ₚ pairs_of games0.
Proof.
  destruct (pickleball 8 2 2 ([0; 10; 0; 10; 0]%nat : Tape.rng))
    as [s| |] eqn:Hs; [|by vm_compute in Hs..].
  destruct (proj2 (proj2 (proj2 (pickleball_keeps_pairs 8 2 2
              ([0; 10; 0; 10; 0]%nat : Tape.rng)))) s Hs)
    as (games0 & H).
  exists s, games0. exact (conj eq_refl H).
Defined.

(** ** Runs with the same draws *)

Section same_draws.
Context {rng1 rng2 : Type} {R1 : Random rng1} {R2 : Random rng2}.
Context (sim : rng1 → rng2 → Prop) (Hdraws : same_draws sim).

Lemma res_rel_eq {X} (m : res X) : res_rel eq m m.
Proof. destruct m; by constructor. Qed.

Lemma res_rel_bind {X1 X2 Y1 Y2} (r : X1 → X2 → Prop) (q : Y1 → Y2 → Prop)
    (m1 : res X1) (m2 : res X2) (f1 : X1 → res Y1) (f2 : X2 → res Y2) :
  res_rel r m1 m2 → (∀ a1 a2, r a1 a2 → res_rel q (f1 a1) (f2 a2)) →
  res_rel q (m1 ≫= f1) (m2 ≫= f2).
Proof. intros [a1 a2 Ha|e|] Hf; simpl; [by apply Hf|constructor..]. Qed.

Lemma keep_swap_ext courts (st1 : state rng1) (st2 : state rng2) games i j d :
  diff st1 = diff st2 → sched st1 = sched st2 →
  keep_swap courts st1 games i j d = keep_swap courts st2 games i j d.
Proof. unfold keep_swap. by intros -> ->. Qed.

Lemma trial_sim courts pairs st1 st2 :
  state_sim sim st1 st2 →
  res_rel (state_sim sim) (trial courts pairs st1) (trial courts pairs st2).
Proof using Hdraws.
  intros (Hgames & Hsched & Hdiff & Hsim). unfold trial.
  rewrite <-Hgames.
  eapply res_rel_bind; [by apply Hdraws|].
  intros [idx g1] [idx' g2] [Hidx Hsim']. cbn [fst snd] in Hidx, Hsim'.
  subst idx'. cbn beta iota.
  eapply res_rel_bind; [apply res_rel_eq|]. intros [[i j] ab] ? <-.
  cbn beta iota.
  eapply res_rel_bind; [apply res_rel_eq|]. intros games1 ? <-.
  rewrite (keep_swap_ext courts st1 st2) by done.
  eapply res_rel_bind; [apply res_rel_eq|]. intros keep ? <-.
  destruct keep.
  - eapply res_rel_bind; [apply res_rel_eq|]. intros s ? <-.
    by constructor.
  - eapply res_rel_bind; [apply res_rel_eq|]. intros games2 ? <-.
    by constructor.
Qed.

Lemma trials_sim k courts pairs st1 st2 :
  state_sim sim st1 st2 →
  res_rel (state_sim sim)
    (trials k courts pairs st1) (trials k courts pairs st2).
Proof using Hdraws.
  revert st1 st2. induction k as [|k IH]; intros st1 st2 Hst.
  - by constructor.
  - cbn [trials]. eapply res_rel_bind; [by apply trial_sim|]. apply IH.
Qed.

Lemma pickleball_run_sim P courts N g1 g2 :
  sim g1 g2 →
  res_rel (state_sim sim)
    (pickleball_run P courts N g1) (pickleball_run P courts N g2).
Proof using Hdraws.
  intros Hsim. unfold pickleball_run, initial.
  destruct (make_games (all_pairs P)) as [games0|]; [|constructor].
  destruct (schedule_objects games0 courts) as [s| |];
    rewrite ?Ret_bind; [|constructor..].
  by apply trials_sim.
Qed.
End same_draws.

(** C2, as the code has it: [pickleball] has no seed among its
    arguments; its draws come from the generator of the process.  Two runs
    with the same [P], [courts] and [N] whose generators hand out the same
    draws return the same schedule (or raise the same exception) and leave
    generators that again hand out the same draws; in particular two runs
    from the same state of the generator. *)
Theorem pickleball_deterministic {rng1 rng2}
    {R1 : Random rng1} {R2 : Random rng2} (sim : rng1 → rng2 → Prop)
    (P courts N : Z) (g1 : rng1) (g2 : rng2) :
  same_draws sim → sim g1 g2 →
  pickleball P courts N g1 = pickleball P courts N g2
  ∧ res_rel (λ st1 st2, sim (gen st1) (gen st2))
      (pickleball_run P courts N g1) (pickleball_run P courts N g2).
Proof.
  intros Hdraws Hsim. unfold pickleball.
  destruct (pickleball_run_sim sim Hdraws P courts N g1 g2 Hsim)
    as [st1 st2 (Hgames & Hsched & _ & Hgen)|e|]; simpl.
  - split; [by rewrite Hgames, Hsched|by constructor].
  - split; [done|constructor].
  - split; [done|constructor].
Qed.

Lemma pickleball_deterministic_witness :
  pickleball 8 2 1 ([0; 10; 0]%nat : Tape.rng)
  = pickleball 8 2 1 ([0; 10; 0]%nat : Tape.rng)
  ∧ res_rel (λ st1 st2 : state Tape.rng, gen st1 = gen st2)
      (pickleball_run 8 2 1 ([0; 10; 0]%nat : Tape.rng))
      (pickleball_run 8 2 1 ([0; 10; 0]%nat : Tape.rng)).
Proof.
  apply (pickleball_deterministic eq); [|done].
  intros games g1 g2 <-. destruct (indexes games g1) as [[idx g]| |]; by constructor.
Defined.

(** The claim C2 as the specification states it fails: two runs of a
    program that starts from the same state of the generator (the same
    seed) and calls [pickleball 8 2 1], in one of them after one other
    draw, return different schedules. *)
Lemma pickleball_depends_on_earlier_draws :
  random_choice [0; 1] ([0; 10; 0]%nat : Tape.rng) = Ret (0, [10; 0]%nat)
  ∧ pickleball 8 2 1 ([0; 10; 0]%nat : Tape.rng)
    ≠ pickleball 8 2 1 ([10; 0]%nat : Tape.rng).
Proof. split; [done|]. by vm_compute. Qed.

(** ** Configurations that the specification calls invalid *)

Lemma make_games_few_players (P : Z) : P ≤ 2 → make_games (all_pairs P) = Some [].
Proof.
  intros HP. destruct (decide (P < 2)) as [?|?].
  - by rewrite all_pairs_small.
  - by replace P with 2 by lia.
Qed.

(** C3, as the code has it: no configuration is rejected, and there is
    no InvalidConfiguration.  [all_pairs P] is the empty list for
    [P < 2].  [pickleball P courts N] with [P ≤ 2] returns the empty
    schedule for [N ≤ 0], and raises the ValueError of the first draw
    for [N ≥ 1]; with [P = 3] it raises a TypeError, after [make_games]
    found no match; with [P ≥ 4] and [courts < 1] it does not return. *)
Theorem no_configuration_check {rng} {R : Random rng}
    (P courts N : Z) (g : rng) :
  (P < 2 → all_pairs P = [])
  ∧ (P ≤ 2 → N ≤ 0 → pickleball P courts N g = Ret [])
  ∧ (RandomLaws rng → P ≤ 2 → 1 ≤ N →
     pickleball P courts N g = Raise ValueError)
  ∧ (P = 3 → pickleball P courts N g = Raise TypeError)
  ∧ (4 ≤ P → courts < 1 → pickleball P courts N g = Diverges).
Proof.
  split_and!.
  - apply all_pairs_small.
  - intros HP HN. unfold pickleball, pickleball_run, initial.
    rewrite make_games_few_players by done.
    by replace (Z.to_nat N) with 0%nat by lia.
  - intros RL HP HN. unfold pickleball, pickleball_run, initial.
    rewrite make_games_few_players by done.
    destruct (Z.to_nat N) as [|n] eqn:Hn; [lia|]. simpl.
    unfold trial. simpl. by rewrite indexes_small by (simpl; lia).
  - by intros ->.
  - intros HP Hcourts. unfold pickleball, pickleball_run, initial.
    destruct (make_games_all_pairs_spec P HP) as (games0 & -> & _ & Hlen & _).
    unfold schedule_objects. rewrite schedule_on_diverges; [done|done|].
    assert (3 ≤ P * (P - 1) / 4) by (apply Z.div_le_lower_bound; nia).
    destruct games0; [simpl in *; lia|done].
Qed.

Lemma no_configuration_check_witness :
  all_pairs 1 = []
  ∧ pickleball 2 1 0 ([] : Tape.rng) = Ret []
  ∧ pickleball 2 1 1 ([] : Tape.rng) = Raise ValueError
  ∧ pickleball 3 1 1 ([] : Tape.rng) = Raise TypeError
  ∧ pickleball 4 0 1 ([] : Tape.rng) = Diverges.
Proof.
  split_and!.
  - apply (proj1 (no_configuration_check 1 1 0 ([] : Tape.rng))). lia.
  - apply (proj1 (proj2 (no_configuration_check 2 1 0 ([] : Tape.rng)))); lia.
  - apply (proj1 (proj2 (proj2
             (no_configuration_check 2 1 1 ([] : Tape.rng)))));
      [apply Tape_laws|lia|lia].
  - by apply (proj1 (proj2 (proj2 (proj2
             (no_configuration_check 3 1 1 ([] : Tape.rng)))))).
  - apply (proj2 (proj2 (proj2 (proj2
             (no_configuration_check 4 0 1 ([] : Tape.rng)))))); lia.
Defined.

(** The claim C3 as the specification states it fails: [all_pairs 1]
    returns a value, and [pickleball 2 1 0] returns a schedule. *)
Lemma invalid_configuration_accepted :
  all_pairs 1 = [] ∧ pickleball 2 1 0 ([] : Tape.rng) = Ret [].
Proof. split; reflexivity. Qed.

(** * Further properties of the code *)

(** ** [all_pairs] *)

Lemma filter_drops_all {X} (P : X → Prop) `{∀ x, Decision (P x)} (l : list X) :
  (∀ x, x ∈ l → ¬ P x) → filter P l = [].
Proof.
  induction l as [|x l IH]; intros HP; [done|].
  rewrite filter_cons, decide_False by (apply HP; left).
  apply IH. intros y Hy. apply HP. by right.
Qed.

Lemma pairs_with_head {X} `{EqDecision X} (y x : X) (t : list X) :
  NoDup t → x ∈ t → x ≠ y →
  length (filter (λ p : X * X, x = p.1 ∨ x = p.2) (map (pair y) t)) = 1%nat.
Proof.
  intros Hnd Hx Hxy. induction Hnd as [|z t Hz Hnd IH]; [by apply elem_of_nil in Hx|].
  cbn [map]. rewrite filter_cons. cbn [fst snd].
  destruct (decide (x = z)) as [->|Hxz].
  - rewrite decide_True by (by right). cbn [length]. f_equal.
    apply length_zero_iff_nil, filter_drops_all.
    intros p (w & -> & Hw)%list_elem_of_fmap [?|?]; simplify_eq/=.
  - rewrite decide_False by naive_solver.
    apply IH. by apply elem_of_cons in Hx as [?|?].
Qed.

Lemma combinations2_with {X} `{EqDecision X} (l : list X) (x : X) :
  NoDup l → x ∈ l →
  length (filter (λ p, x = p.1 ∨ x = p.2) (combinations2 l))
  = (length l - 1)%nat.
Proof.
  induction 1 as [|y t Hy Hnd IH]; [by intros ?%elem_of_nil|].
  intros Hx. cbn [combinations2 length]. rewrite filter_app, length_app.
  destruct (decide (x = y)) as [->|Hne].
  - rewrite filter_keeps_all, length_map; last first.
    { intros p (z & -> & _)%list_elem_of_fmap. by left. }
    rewrite (filter_drops_all _ (combinations2 t)); [simpl; lia|].
    intros [a b] (i & j & _ & Hi & Hj)%elem_of_combinations2 [?|?];
      simplify_eq/=; apply Hy; by eapply list_elem_of_lookup_2.
  - apply elem_of_cons in Hx as [?|Hx]; [done|].
    rewrite IH, pairs_with_head by done.
    destruct t; [by apply elem_of_nil in Hx|simpl; lia].
Qed.

(** X1: [all_pairs P] lists, without repetition, exactly the pairs
    [(a, b)] with [0 ≤ a < b < P]: there are [P * (P - 1) / 2] of them
    for [P ≥ 0], none for [P ≤ 1], and every player below [P] is in
    [P - 1] of them. *)
Theorem all_pairs_exact (P : Z) :
  NoDup (all_pairs P)
  ∧ (∀ a b, (a, b) ∈ all_pairs P ↔ 0 ≤ a ∧ a < b ∧ b < P)
  ∧ (0 ≤ P → Z.of_nat (length (all_pairs P)) = P * (P - 1) / 2)
  ∧ (P ≤ 1 → all_pairs P = [])
  ∧ (∀ x, 0 ≤ x → x < P →
       Z.of_nat (length (filter (λ p, x = p.1 ∨ x = p.2) (all_pairs P)))
       = P - 1).
Proof.
  split_and!.
  - apply NoDup_all_pairs.
  - apply elem_of_all_pairs.
  - apply length_all_pairs.
  - intros HP. apply all_pairs_small. lia.
  - intros x Hx HxP. unfold all_pairs.
    etrans; [apply f_equal, (combinations2_with (range P) x)|].
    + apply NoDup_seqZ.
    + by apply elem_of_range.
    + unfold range. rewrite length_seqZ. lia.
Qed.

(** ** [make_games] on any list of pairs *)

Lemma make_games_distinct (pairs : list Pair) (gs : list Game) :
  make_games pairs = Some gs →
  Forall well_formed gs ∧ NoDup (pairs_of gs)
  ∧ (∀ p, p ∈ pairs_of gs → p ∈ pairs)
  ∧ (∀ g rest, gs = g :: rest → head pairs = Some g.1).
Proof.
  remember (length pairs) as n eqn:Hn. revert pairs gs Hn.
  induction n as [n IH] using lt_wf_ind. intros pairs gs ->.
  rewrite make_games_unfold.
  destruct pairs as [|A [|A' pairs]].
  - intros [= <-]. split_and!; [constructor|constructor| |done].
    by intros p ?%elem_of_nil.
  - intros [= <-]. split_and!; [constructor|constructor| |done].
    by intros p ?%elem_of_nil.
  - intros (B & other & HB & HAB & Hrec & ->)%try_partners_Some.
    set (ps := A :: A' :: pairs) in *.
    assert (A ∈ ps) as HA by (subst ps; left).
    pose proof (not_in_game_length A B ps HA) as Hlt.
    destruct (IH _ Hlt _ other eq_refl Hrec) as (Hwf & Hnd & Hin & _).
    assert (∀ p, p ∈ pairs_of other → p ∈ ps ∧ p ≠ A ∧ p ≠ B) as Hin'.
    { intros p Hp%Hin. unfold not_in_game in Hp.
      apply list_elem_of_filter in Hp as [Hp ?].
      rewrite !not_elem_of_cons in Hp. naive_solver. }
    split_and!.
    + by constructor.
    + rewrite pairs_of_cons. cbn [fst snd].
      apply four_players_ne in HAB.
      rewrite !NoDup_cons, not_elem_of_cons. naive_solver.
    + intros p. rewrite pairs_of_cons. cbn [fst snd].
      rewrite !elem_of_cons. intros [->|[->|Hp]]; [done|done|].
      by apply Hin'.
    + by intros g rest [= <- _].
Qed.

(** X2: whatever list of pairs [make_games] is given, the games it
    returns have four different players each, hold every pair at most once
    and only pairs of the input, and the first game starts with the first
    pair of the input.  When the input has no pair twice, fewer than 2 of
    its pairs are in no game: there are [length pairs / 2] games. *)
Theorem make_games_result (pairs : list Pair) (games : list Game) :
  make_games pairs = Some games →
  Forall well_formed games
  ∧ NoDup (pairs_of games)
  ∧ (∀ p, p ∈ pairs_of games → p ∈ pairs)
  ∧ (∀ g rest, games = g :: rest → head pairs = Some g.1)
  ∧ (NoDup pairs →
     length games = (length pairs / 2)%nat
     ∧ ∃ dropped, pairs ≡ₚ pairs_of games ++ dropped
                  ∧ length dropped = (length pairs `mod` 2)%nat).
Proof.
  intros Hgames.
  destruct (make_games_distinct _ _ Hgames) as (Hwf & Hnd & Hin & Hhead).
  split_and!; [done..|].
  intros Hpairs.
  destruct (make_games_sound _ _ Hpairs Hgames) as (_ & dropped & Hperm & Hlen).
  pose proof (Permutation_length Hperm) as Hl.
  rewrite length_app, length_pairs_of in Hl.
  assert (length dropped = (length pairs `mod` 2)%nat ∧
          length games = (length pairs / 2)%nat) as [? ?].
  { split.
    - apply (Nat.mod_unique _ 2 (length games)); lia.
    - apply (Nat.div_unique _ 2 _ (length dropped)); lia. }
  split; [done|]. by exists dropped.
Qed.

Lemma make_games_result_witness :
  let games := [((0,1),(2,3)); ((0,2),(1,3)); ((0,3),(1,2))] in
  Forall well_formed games
  ∧ NoDup (pairs_of games)
  ∧ (∀ p, p ∈ pairs_of games → p ∈ all_pairs 4)
  ∧ (∀ g rest, games = g :: rest → head (all_pairs 4) = Some g.1)
  ∧ (NoDup (all_pairs 4) →
     length games = (length (all_pairs 4) / 2)%nat
     ∧ ∃ dropped, all_pairs 4 ≡ₚ pairs_of games ++ dropped
                  ∧ length dropped = (length (all_pairs 4) `mod` 2)%nat).
Proof. intros games. apply make_games_result. vm_compute. reflexivity. Defined.

(** X3: the search of [make_games] is complete.  On a list without
    repetition it finds games whenever all pairs but at most the last one
    can be put together into games of four different players; and on such
    a list of even length it returns games if and only if the pairs can be
    put together so. *)
Theorem make_games_finds_games (pairs : list Pair) :
  NoDup pairs →
  (∀ l tail, pairs = l ++ tail → (length tail ≤ 1)%nat → matchable l →
     is_Some (make_games pairs))
  ∧ (Nat.Even (length pairs) →
     (is_Some (make_games pairs) ↔ matchable pairs)).
Proof.
  intros Hnd. split.
  - intros l tail -> Htail (ms & Hwf & Hms). by apply (make_games_complete ms).
  - intros [k Hk]. split.
    + intros [gs Hgs].
      destruct (make_games_sound _ _ Hnd Hgs) as (Hwf & dropped & Hperm & Hlen).
      pose proof (Permutation_length Hperm) as Hl.
      rewrite length_app, length_pairs_of in Hl.
      destruct dropped as [|? [|??]]; simpl in *; [|lia..].
      exists gs. by rewrite app_nil_r in Hperm.
    + intros (ms & Hwf & Hms). rewrite <-(app_nil_r pairs).
      apply (make_games_complete ms); simpl; [by rewrite app_nil_r|done|done|lia].
Qed.

Lemma make_games_finds_games_witness :
  is_Some (make_games [(0,1); (2,3); (0,2); (1,3); (0,3)])
  ∧ (is_Some (make_games [(0,2); (1,3); (0,1); (2,3)])
     ↔ matchable [(0,2); (1,3); (0,1); (2,3)]).
Proof.
  split.
  - apply (proj1 (make_games_finds_games [(0,1); (2,3); (0,2); (1,3); (0,3)]
                    ltac:(by apply (bool_decide_unpack _))))
      with (l := [(0,1); (2,3); (0,2); (1,3)]) (tail := [(0,3)]);
      [done|simpl; lia|].
    exists [((0,1),(2,3)); ((0,2),(1,3))]. split; [|done].
    repeat constructor; apply well_formed_ne; lia.
  - apply (proj2 (make_games_finds_games [(0,2); (1,3); (0,1); (2,3)]
                    ltac:(by apply (bool_decide_unpack _)))).
    by exists 2%nat.
Defined.

(** ** [make_games] on all pairs in any order *)

Section relabel.
Context (σ : Player → Player) (P : Z).
Context (Hinj : ∀ x y, σ x = σ y → x = y).
Context (Hrange : ∀ x, 0 ≤ x < P → 0 ≤ σ x < P).

Lemma relabel_all_pairs (p : Pair) : p ∈ all_pairs P → relabel σ p ∈ all_pairs P.
Proof using Hinj Hrange.
  destruct p as [a b]. rewrite elem_of_all_pairs. intros (Ha & Hab & Hb).
  unfold relabel, pairing. apply elem_of_all_pairs. cbn [fst snd].
  pose proof (Hrange a ltac:(lia)). pose proof (Hrange b ltac:(lia)).
  assert (σ a ≠ σ b) by (intros ?%Hinj; lia). lia.
Qed.

Lemma relabel_inj (p q : Pair) :
  p ∈ all_pairs P → q ∈ all_pairs P → relabel σ p = relabel σ q → p = q.
Proof using Hinj.
  destruct p as [a b], q as [c d]. rewrite !elem_of_all_pairs.
  intros (Ha & Hab & Hb) (Hc & Hcd & Hd). unfold relabel, pairing.
  cbn [fst snd]. intros [= Hmin Hmax].
  assert ((σ a = σ c ∧ σ b = σ d) ∨ (σ a = σ d ∧ σ b = σ c))
    as [[->%Hinj ->%Hinj]|[->%Hinj ->%Hinj]] by lia; [done|lia].
Qed.

Lemma relabel_Permutation : relabel σ <$> all_pairs P ≡ₚ all_pairs P.
Proof using Hinj Hrange.
  apply submseteq_length_Permutation; [|by rewrite length_fmap].
  apply NoDup_submseteq.
  - apply NoDup_fmap_2_strong; [|apply NoDup_all_pairs].
    intros p q. apply relabel_inj.
  - intros q (p & -> & Hp)%list_elem_of_fmap. by apply relabel_all_pairs.
Qed.

Lemma relabel_well_formed (g : Game) :
  well_formed g → well_formed (relabel σ g.1, relabel σ g.2).
Proof using Hinj.
  clear Hrange. destruct g as [[a b] [c d]]. unfold well_formed.
  rewrite !four_players_spec. unfold relabel, pairing. cbn [fst snd].
  rewrite !NoDup_cons, !not_elem_of_cons, !elem_of_nil.
  intros Hne.
  assert (σ a ≠ σ b ∧ σ a ≠ σ c ∧ σ a ≠ σ d ∧ σ b ≠ σ c ∧ σ b ≠ σ d ∧ σ c ≠ σ d)
    as (? & ? & ? & ? & ? & ?) by (split_and!; intros ?%Hinj; naive_solver).
  clear Hne. split_and!; try done; try apply NoDup_nil_2; lia.
Qed.

Lemma relabel_matchable (ps : list Pair) :
  matchable ps → matchable (relabel σ <$> ps).
Proof using Hinj.
  intros (ms & Hwf & Hms).
  exists ((λ g, (relabel σ g.1, relabel σ g.2)) <$> ms). split.
  - apply Forall_fmap. eapply Forall_impl; [exact Hwf|].
    intros g. apply relabel_well_formed.
  - rewrite Hms. clear. induction ms as [|g ms IH]; [done|].
    rewrite fmap_cons, !pairs_of_cons, !fmap_cons. cbn [fst snd].
    by rewrite IH.
Qed.
End relabel.

Lemma exchange_inj (u v x y : Player) : exchange u v x = exchange u v y → x = y.
Proof. unfold exchange. repeat case_decide; lia. Qed.

(** Any pair can be the one that is left out. *)
Lemma all_pairs_but_one (P : Z) (q : Pair) :
  4 ≤ P → q ∈ all_pairs P → dropped_pair P ≠ [] →
  ∃ ps, matchable ps ∧ all_pairs P ≡ₚ ps ++ [q].
Proof.
  intros HP Hq Hdropped.
  destruct (near_matchable_all P HP) as (ps & Hps & Hall).
  unfold dropped_pair in *. case_decide; [done|].
  destruct q as [a b]. apply elem_of_all_pairs in Hq as (Ha & Hab & Hb).
  set (s1 := exchange (P - 2) a).
  set (s2 := exchange (s1 (P - 1)) b).
  set (σ := λ x, s2 (s1 x)).
  assert (∀ x y, σ x = σ y → x = y) as Hinj.
  { intros x y Hxy. by apply exchange_inj, exchange_inj in Hxy. }
  assert (∀ x, 0 ≤ x < P → 0 ≤ σ x < P) as Hrange.
  { intros x Hx. subst σ s2 s1. cbv beta. unfold exchange.
    repeat case_decide; lia. }
  assert (relabel σ (P - 2, P - 1) = (a, b)) as Hσ.
  { unfold relabel, pairing. cbn [fst snd]. subst σ s2 s1. cbv beta.
    unfold exchange. repeat case_decide; f_equal; lia. }
  exists (relabel σ <$> ps). split; [by apply relabel_matchable|].
  rewrite <-(relabel_Permutation σ P Hinj Hrange) at 1.
  by rewrite Hall, fmap_app, fmap_cons, Hσ.
Qed.

Lemma make_games_any_order_Some (P : Z) (pairs : list Pair) :
  4 ≤ P → pairs ≡ₚ all_pairs P → is_Some (make_games pairs).
Proof.
  intros HP Hpairs.
  assert (NoDup pairs) as Hnd by (rewrite Hpairs; apply NoDup_all_pairs).
  destruct (decide (dropped_pair P = [])) as [Hd|Hd].
  - destruct (near_matchable_all P HP) as (ps & (ms & Hwf & Hms) & Hall).
    rewrite Hd, app_nil_r in Hall. rewrite <-(app_nil_r pairs).
    apply (make_games_complete ms); simpl; [by rewrite app_nil_r|done| |lia].
    by rewrite Hpairs, Hall.
  - destruct pairs as [|q l _] using rev_ind.
    { symmetry in Hpairs. apply Permutation_nil_r in Hpairs.
      pose proof (length_all_pairs P ltac:(lia)) as Hlen.
      rewrite Hpairs in Hlen. simpl in Hlen.
      assert (3 ≤ P * (P - 1) / 2) by (apply Z.div_le_lower_bound; nia). lia. }
    destruct (all_pairs_but_one P q HP) as (ps & (ms & Hwf & Hms) & Hall);
      [rewrite <-Hpairs, elem_of_app; right; left|done|].
    rewrite Hall in Hpairs. apply Permutation_app_inv_r in Hpairs.
    apply (make_games_complete ms); simpl; [done|done| |lia].
    by rewrite Hpairs.
Qed.

(** X4: [make_games] finds games for all pairs of at least 4 players in
    whatever order they come, as after [shuffled]: it returns
    [P * (P - 1) / 4] games (rounded down) of four different players, which
    hold every pair when [P] or [P - 1] is a multiple of 4 and every pair
    but one otherwise. *)
Theorem make_games_any_order (P : Z) (pairs : list Pair) :
  4 ≤ P → pairs ≡ₚ all_pairs P →
  ∃ games dropped,
    make_games pairs = Some games
    ∧ Forall well_formed games
    ∧ Z.of_nat (length games) = P * (P - 1) / 4
    ∧ pairs ≡ₚ pairs_of games ++ dropped
    ∧ (length dropped ≤ 1)%nat
    ∧ (dropped = [] ↔ P `mod` 4 = 0 ∨ (P - 1) `mod` 4 = 0).
Proof.
  intros HP Hpairs.
  destruct (make_games_any_order_Some P pairs HP Hpairs) as [gs Hgs].
  assert (NoDup pairs) as Hnd by (rewrite Hpairs; apply NoDup_all_pairs).
  destruct (make_games_sound _ _ Hnd Hgs) as (Hwf & dropped & Hperm & Hdropped).
  pose proof (double_length_all_pairs P ltac:(lia)) as Hlen.
  rewrite <-Hpairs, Hperm, length_app, length_pairs_of in Hlen.
  destruct (games_arithmetic P (Z.of_nat (length gs))
              (Z.of_nat (length dropped))) as [Hg Hd]; [lia|lia|].
  exists gs, dropped. split_and!; [done|done|done|done|lia|].
  rewrite <-Hd. destruct dropped; [done|]. split; [done|simpl; lia].
Qed.

Lemma make_games_any_order_witness :
  ∃ games dropped,
    make_games (reverse (all_pairs 6)) = Some games
    ∧ Forall well_formed games
    ∧ Z.of_nat (length games) = 6 * (6 - 1) / 4
    ∧ reverse (all_pairs 6) ≡ₚ pairs_of games ++ dropped
    ∧ (length dropped ≤ 1)%nat
    ∧ (dropped = [] ↔ 6 `mod` 4 = 0 ∨ (6 - 1) `mod` 4 = 0).
Proof.
  apply (make_games_any_order 6); [lia|]. apply reverse_Permutation.
Defined.

(** ** [schedule]: outcomes, first fit and number of rounds *)

Section first_fit_facts.
Context {A : Type} (val : A → Game).
Implicit Types (round games rest kept : list A) (courts : Z).

Lemma fill_round_blocks courts rest kept round :
  Forall (λ k, ¬ can_place val courts round k) kept →
  ∃ placed kept',
    fill_round val courts rest round (kept ++ rest)
      = Ret (round ++ placed, kept ++ kept')
    ∧ Forall (λ k, ¬ can_place val courts (round ++ placed) k) (kept ++ kept')
    ∧ placed `sublist_of` rest ∧ kept' `sublist_of` rest
    ∧ (∀ g rest', rest = g :: rest' → can_place val courts round g →
         ∃ placed', placed = g :: placed').
Proof.
  revert kept round. induction rest as [|game rest IH]; intros kept round Hkept.
  { exists [], []. rewrite !app_nil_r. split_and!; [done..|]. by intros. }
  rewrite fill_round_cons. destruct (can_place val courts round game) eqn:Hplace.
  - rewrite list_remove_middle; last first.
    { eapply Forall_impl; [exact Hkept|]. intros k Hk Hval. simpl in *.
      rewrite (can_place_val _ _ _ _ _ Hval), Hplace in Hk. by apply Hk. }
    destruct (IH kept (round ++ [game]))
      as (placed & kept' & Hfill & Hblocked & Hsub1 & Hsub2 & _).
    { eapply Forall_impl; [exact Hkept|]. intros k Hk Hk'. simpl in *.
      by apply Hk, (can_place_snoc _ _ _ game). }
    rewrite <-(assoc (++)) in Hfill, Hblocked.
    cbn [app] in Hfill, Hblocked.
    exists (game :: placed), kept'. rewrite Hfill.
    split_and!; [done|done|by apply sublist_skip|by apply sublist_cons|].
    intros g rest' [= <- <-] _. by exists placed.
  - destruct (IH (kept ++ [game]) round)
      as (placed & kept' & Hfill & Hblocked & Hsub1 & Hsub2 & _).
    { apply Forall_app. split; [done|]. constructor; [|done].
      simpl. rewrite Hplace. by intros []. }
    rewrite <-!(assoc (++)) in Hfill. rewrite <-(assoc (++)) in Hblocked.
    cbn [app] in Hfill, Hblocked.
    exists placed, (game :: kept'). rewrite Hfill.
    split_and!; [done|done|by apply sublist_cons|by apply sublist_skip|].
    intros g rest' [= <- <-] Hg. by rewrite Hplace in Hg.
Qed.

Lemma schedule_loop_first_fit fuel courts games sched s :
  schedule_loop val fuel courts games sched = Ret s →
  ∃ rounds, s = sched ++ rounds
    ∧ concat rounds ≡ₚ games
    ∧ first_fit val courts rounds
    ∧ Forall (λ round, round `sublist_of` games) rounds
    ∧ (∀ g rest, games = g :: rest → 1 ≤ courts →
         ∃ r rs, rounds = (g :: r) :: rs).
Proof.
  revert games sched. induction fuel as [|fuel IH]; intros games sched.
  - destruct games; [|done]. intros [= <-]. exists []. rewrite app_nil_r.
    split_and!; [done|done|done|constructor|done].
  - destruct games as [|g games].
    { intros [= <-]. exists []. rewrite app_nil_r.
      split_and!; [done|done|done|constructor|done]. }
    cbn [schedule_loop].
    destruct (fill_round_blocks courts (g :: games) [] [])
      as (placed & kept' & Hfill & Hblocked & Hsub1 & Hsub2 & Hfirst);
      [constructor|].
    cbn [app] in Hfill, Hblocked. rewrite Hfill, Ret_bind.
    intros (rounds & -> & Hperm & Hff & Hsub & _)%IH.
    exists (placed :: rounds). rewrite <-(assoc (++)).
    split_and!; [done| | | |].
    + destruct (fill_round_spec val courts (g :: games) [] [])
        as (placed' & kept'' & Hfill' & Hperm' & _); [constructor|].
      cbn [app] in Hfill'. rewrite Hfill in Hfill'. injection Hfill' as <- <-.
      cbn [concat]. by rewrite Hperm, Hperm'.
    + split; [|done]. by rewrite Hperm.
    + constructor; [done|]. eapply Forall_impl; [exact Hsub|].
      intros round Hround. simpl in Hround. by etrans.
    + intros g' rest [= <- <-] Hcourts.
      destruct (Hfirst g games eq_refl) as [placed' ->]; [|by eexists _, _].
      unfold can_place, disjoint, players_round. simpl.
      rewrite bool_decide_eq_true_2 by lia.
      by rewrite bool_decide_eq_true_2 by set_solver.
Qed.

Lemma first_fit_later courts (pre later : list (list A)) round :
  first_fit val courts (pre ++ round :: later) →
  Forall (λ g, ¬ can_place val courts round g) (concat later).
Proof.
  induction pre as [|r pre IH]; simpl; [by intros [? _]|].
  intros [_ ?]. by apply IH.
Qed.

Lemma schedule_on_never_raises courts games e :
  schedule_on val games courts ≠ Raise e.
Proof.
  unfold schedule_on. generalize (@nil (list A)) (length games).
  intros sched fuel. revert games sched.
  induction fuel as [|fuel IH]; intros games sched; [by destruct games|].
  destruct games as [|g games]; [done|]. cbn [schedule_loop].
  destruct (fill_round_spec val courts (g :: games) [] [])
    as (placed & kept' & Hfill & _); [constructor|].
  cbn [app] in Hfill. rewrite Hfill, Ret_bind. apply IH.
Qed.

Lemma rounds_length courts (rounds : list (list A)) :
  Forall (round_ok val courts) rounds →
  (length rounds ≤ length (concat rounds))%nat
  ∧ Z.of_nat (length (concat rounds)) ≤ courts * Z.of_nat (length rounds).
Proof.
  induction 1 as [|round rounds (Hne & Hlen & _) _ IH]; simpl; [lia|].
  rewrite length_app. destruct round; [done|]. simpl in *. lia.
Qed.
End first_fit_facts.

(** X5: the outcomes of [schedule].  With a court, or without games,
    it returns; the schedule of no games is empty.  With games and no
    court ([courts < 1]) the [while] loop never ends, however many rounds
    it is given.  [schedule] never raises an exception: [games.remove]
    always finds its game. *)
Theorem schedule_outcomes (games : list Game) (courts : Z) :
  (1 ≤ courts ∨ games = [] → ∃ rounds, schedule games courts = Ret rounds)
  ∧ schedule [] courts = Ret []
  ∧ (courts < 1 → games ≠ [] →
     ∀ fuel sched, schedule_loop id fuel courts games sched = Diverges)
  ∧ (∀ e, schedule games courts ≠ Raise e)
  ∧ (∀ fuel fuel' rounds,
       schedule_loop id fuel courts games [] = Ret rounds → (fuel ≤ fuel')%nat →
       schedule_loop id fuel' courts games [] = Ret rounds).
Proof.
  split_and!.
  - apply (proj1 (schedule_on_outcome id courts games)).
  - done.
  - intros Hcourts Hgames fuel sched. by apply schedule_loop_diverges.
  - intros e. apply schedule_on_never_raises.
  - intros fuel fuel' rounds. apply schedule_loop_more_fuel.
Qed.

(** X6: [schedule] fills its rounds first fit.  Every game of a later
    round was refused by each earlier round: that round was full or has a
    player of the game.  The games of a round keep the order of the
    input, and with a court the first game of the input is the first game
    of the first round. *)
Theorem schedule_first_fit (games : list Game) (courts : Z) (rounds : Schedule) :
  schedule games courts = Ret rounds →
  (∀ pre round later g, rounds = pre ++ round :: later → g ∈ concat later →
     courts ≤ Z.of_nat (length round)
     ∨ ¬ players_round round ## players_game g)
  ∧ Forall (λ round, round `sublist_of` games) rounds
  ∧ (∀ g rest, games = g :: rest → 1 ≤ courts →
       ∃ r rs, rounds = (g :: r) :: rs).
Proof.
  intros (rounds' & Hrounds & _ & Hff & Hsub & Hfirst)%schedule_loop_first_fit.
  cbn [app] in Hrounds. subst rounds'. split_and!; [|done|done].
  intros pre round later g -> Hg.
  apply first_fit_later in Hff. rewrite Forall_forall in Hff.
  specialize (Hff g Hg). unfold can_place in Hff.
  rewrite andb_True, bool_decide_spec, list_fmap_id in Hff.
  destruct (decide (Z.of_nat (length round) < courts)) as [Hlt|?]; [|lia].
  right. intros Hdisj. apply Hff. split; [done|]. by apply disjoint_spec.
Qed.

Lemma schedule_first_fit_witness :
  let games := [((0,1),(2,3)); ((0,2),(1,3)); ((4,5),(6,7)); ((0,3),(1,2))] in
  ∃ rounds,
    schedule games 2 = Ret rounds
    ∧ (∀ pre round later g, rounds = pre ++ round :: later → g ∈ concat later →
         2 ≤ Z.of_nat (length round)
         ∨ ¬ players_round round ## players_game g)
    ∧ Forall (λ round, round `sublist_of` games) rounds
    ∧ (∀ g rest, games = g :: rest → 1 ≤ 2 →
         ∃ r rs, rounds = (g :: r) :: rs).
Proof.
  intros games. eexists. split; [vm_compute; reflexivity|].
  apply (schedule_first_fit games 2). vm_compute. reflexivity.
Defined.

(** X7: with [courts ≥ 1], [schedule] makes at most as many rounds as
    there are games, and at least [length games / courts] of them. *)
Theorem schedule_length (games : list Game) (courts : Z) (rounds : Schedule) :
  1 ≤ courts → schedule games courts = Ret rounds →
  (length rounds ≤ length games)%nat
  ∧ Z.of_nat (length games) ≤ courts * Z.of_nat (length rounds).
Proof.
  intros Hcourts Hrounds.
  destruct (schedule_on_spec id courts games Hcourts)
    as (rounds' & Hrounds' & Hperm & Hok).
  unfold schedule in Hrounds. rewrite Hrounds in Hrounds'.
  injection Hrounds' as <-.
  destruct (rounds_length id courts rounds Hok) as [H1 H2].
  by rewrite Hperm in H1, H2.
Qed.

Lemma schedule_length_witness :
  let games := [((0,1),(2,3)); ((0,2),(1,3)); ((4,5),(6,7)); ((0,3),(1,2))] in
  ∃ rounds,
    schedule games 2 = Ret rounds
    ∧ (length rounds ≤ length games)%nat
    ∧ Z.of_nat (length games) ≤ 2 * Z.of_nat (length rounds).
Proof.
  intros games. eexists. split; [vm_compute; reflexivity|].
  apply (schedule_length games 2); [lia|]. vm_compute. reflexivity.
Defined.

(** ** [swap] and [indexes] *)

Lemma swap_frame games g1 g2 a b games' :
  swap games ((g1, g2), (a, b)) = Ret games' →
  ∀ k, k ≠ g1 → k ≠ g2 → games' !! k = games !! k.
Proof.
  intros (G1 & G2 & x & y & G1' & G2'' & G2' & _ & _ & _ & _ & _ & _ & _ & ->
         )%swap_Ret_inv k Hk1 Hk2.
  by rewrite !list_lookup_insert_ne.
Qed.




(** X9: with a generator that follows the laws, [indexes] returns the
    indexes of two different games of the list and one of the four pairs
    of sides when there are at least 2 games, and raises the ValueError of
    [random.sample] when there are fewer. *)
Theorem indexes_draw {rng} {R : Random rng} {RL : RandomLaws rng}
    (games : list Game) (g : rng) :
  ((2 ≤ length games)%nat →
   ∃ i j a b g',
     indexes games g = Ret (([i; j], (a, b)), g')
     ∧ (i < length games)%nat ∧ (j < length games)%nat ∧ i ≠ j
     ∧ (a, b) ∈ sides)
  ∧ ((length games < 2)%nat → indexes games g = Raise ValueError).
Proof.
  split; [|apply indexes_small].
  intros Hlen. unfold indexes.
  destruct (random_sample_ok (seq 0 (length games)) 2 g)
    as (l & g1 & -> & Hl & Hsub); [by rewrite length_seq|].
  destruct (random_choice_ok sides g1) as ([a b] & g2 & Hchoice & Hab); [done|].
  rewrite Ret_bind. cbn beta iota. rewrite Hchoice, Ret_bind.
  destruct l as [|i [|j [|??]]]; try done.
  exists i, j, a, b, g2.
  apply submseteq_Permutation in Hsub as [k Hk].
  pose proof (NoDup_seq 0 (length games)) as Hnd. rewrite Hk in Hnd.
  assert (∀ x, x ∈ [i; j] → (x < length games)%nat) as Hin.
  { intros x Hx. assert (x ∈ seq 0 (length games)) as Hx'.
    { rewrite Hk. apply elem_of_app. by left. }
    apply elem_of_seq in Hx'. lia. }
  split_and!; [done|apply Hin; set_solver|apply Hin; set_solver| |done].
  cbn [app] in Hnd. apply NoDup_cons in Hnd as [Hi _].
  intros ->. apply Hi. left.
Qed.

Lemma indexes_draw_witness :
  let games : list Game := [((0,1),(2,3)); ((0,2),(1,3)); ((0,3),(1,2))] in
  let g : Tape.rng := [5; 1; 2]%nat in
  ((2 ≤ length games)%nat →
   ∃ i j a b g',
     indexes games g = Ret (([i; j], (a, b)), g')
     ∧ (i < length games)%nat ∧ (j < length games)%nat ∧ i ≠ j
     ∧ (a, b) ∈ sides)
  ∧ ((length games < 2)%nat → indexes games g = Raise ValueError).
Proof. intros games g. apply (indexes_draw (RL := Tape_laws)). Defined.

(** ** The tally of [opponents] *)

Lemma sum_cons (x : Z) (l : list Z) : sum (x :: l) = x + sum l.
Proof. done. Qed.

Lemma sum_fmap_add {X} (u v : X → Z) (l : list X) :
  sum ((λ x, u x + v x) <$> l) = sum (u <$> l) + sum (v <$> l).
Proof.
  induction l as [|x l IH]; [done|]. rewrite !fmap_cons, !sum_cons, IH. lia.
Qed.

Lemma sum_fmap_const {X} (f : X → Z) (c : Z) (l : list X) :
  (∀ x, x ∈ l → f x = c) → sum (f <$> l) = c * Z.of_nat (length l).
Proof.
  induction l as [|x l IH]; intros Hf; [unfold sum; simpl; lia|].
  rewrite fmap_cons, sum_cons, (Hf x) by left.
  rewrite IH by (intros; apply Hf; by right). cbn [length]. lia.
Qed.

Lemma sum_indicator (l : list Pair) (k : Pair) :
  NoDup l → k ∈ l →
  sum ((λ x, if decide (k = x) then 1 else 0) <$> l) = 1.
Proof.
  induction 1 as [|y l Hy Hnd IH]; [by intros ?%elem_of_nil|].
  intros Hk. rewrite fmap_cons, sum_cons.
  destruct (decide (k = y)) as [->|Hne].
  - rewrite (sum_fmap_const _ 0); [lia|].
    intros x Hx. rewrite decide_False; [done|]. by intros <-.
  - rewrite IH; [lia|]. by apply elem_of_cons in Hk as [?|?].
Qed.

(** The tallies of the keys of a list without repetition add up to the
    number of keys counted, when every key counted is in the list. *)
Lemma sum_count_Counter (keys l : list Pair) :
  NoDup l → (∀ k, k ∈ keys → k ∈ l) →
  sum ((λ x, count (Counter keys) x) <$> l) = Z.of_nat (length keys).
Proof.
  intros Hnd. induction keys as [|k keys IH]; intros Hin.
  - rewrite (sum_fmap_const _ 0); [simpl; lia|].
    intros x _. by rewrite count_Counter.
  - cbn [length]. rewrite Nat2Z.inj_succ, <-Z.add_1_l.
    rewrite <-IH by (intros; apply Hin; by right).
    rewrite <-(sum_indicator l k Hnd) by (apply Hin; left).
    rewrite <-sum_fmap_add. f_equal. apply list_fmap_ext. intros _ x _.
    simpl. rewrite !count_Counter, filter_cons.
    destruct (decide (k = x)); simpl; lia.
Qed.

Lemma length_oppositions (games : list Game) :
  length (oppositions games) = (4 * length games)%nat.
Proof.
  induction games as [|g games IH]; [done|].
  unfold oppositions in *. rewrite bind_cons, length_app, IH. simpl. lia.
Qed.

Lemma elem_of_oppositions (games : list Game) (k : Pair) :
  k ∈ oppositions games →
  ∃ g p1 p2, g ∈ games ∧ p1 ∈ [g.1.1; g.1.2] ∧ p2 ∈ [g.2.1; g.2.2]
             ∧ k = pairing p1 p2.
Proof.
  unfold oppositions.
  intros (g & (p1 & (p2 & Hk & Hp2)%list_elem_of_bind & Hp1)%list_elem_of_bind
            & Hg)%list_elem_of_bind.
  apply list_elem_of_singleton in Hk. by exists g, p1, p2.
Qed.

(** The players of the games are below [P]. *)
Lemma oppositions_all_pairs (games : list Game) (P : Z) :
  Forall well_formed games →
  (∀ p, p ∈ pairs_of games → 0 ≤ p.1 ∧ p.1 < P ∧ 0 ≤ p.2 ∧ p.2 < P) →
  ∀ k, k ∈ oppositions games → k ∈ all_pairs P.
Proof.
  intros Hwf Hrange k (g & p1 & p2 & Hg & Hp1 & Hp2 & ->)%elem_of_oppositions.
  rewrite Forall_forall in Hwf. specialize (Hwf g Hg).
  apply four_players_spec in Hwf.
  assert (g.1 ∈ pairs_of games ∧ g.2 ∈ pairs_of games) as [H1 H2].
  { unfold pairs_of. split; apply list_elem_of_bind; exists g;
      (split; [|done]); unfold game_pairs; set_solver. }
  apply Hrange in H1, H2. unfold pairing. apply elem_of_all_pairs.
  destruct g as [[a b] [c d]]. cbn [fst snd] in *.
  rewrite !NoDup_cons, !not_elem_of_cons, !elem_of_nil in Hwf.
  rewrite !elem_of_cons, !elem_of_nil in Hp1, Hp2.
  destruct Hwf as ((? & ? & ? & _) & (? & ? & _) & (? & _) & _).
  destruct Hp1 as [->|[->|[]]], Hp2 as [->|[->|[]]]; lia.
Qed.

Lemma opponents_sum (games : list Game) (P : Z) :
  Forall well_formed games →
  (∀ p, p ∈ pairs_of games → 0 ≤ p.1 ∧ p.1 < P ∧ 0 ≤ p.2 ∧ p.2 < P) →
  sum ((λ pair, count (opponents games) pair) <$> all_pairs P)
  = 4 * Z.of_nat (length games).
Proof.
  intros Hwf Hrange. unfold opponents. rewrite sum_count_Counter.
  - rewrite length_oppositions. lia.
  - apply NoDup_all_pairs.
  - by apply oppositions_all_pairs.
Qed.

(** X10: every game adds 4 to the tallies of [opponents]: for games of
    four different players below [P], the tallies of all pairs of
    [all_pairs P] add up to 4 times the number of games.  A key whose
    first player is not below its second is never counted. *)
Theorem opponents_total (games : list Game) (P : Z) :
  Forall well_formed games →
  (∀ p, p ∈ pairs_of games → 0 ≤ p.1 ∧ p.1 < P ∧ 0 ≤ p.2 ∧ p.2 < P) →
  sum ((λ pair, count (opponents games) pair) <$> all_pairs P)
  = 4 * Z.of_nat (length games)
  ∧ (∀ a b, b ≤ a → count (opponents games) (a, b) = 0).
Proof.
  intros Hwf Hrange. split; [by apply opponents_sum|].
  intros a b Hab. apply count_Counter_absent.
  intros Hk%(oppositions_all_pairs _ P Hwf Hrange).
  apply elem_of_all_pairs in Hk. lia.
Qed.

Lemma opponents_total_witness :
  let games := [((0,1),(2,3)); ((0,2),(1,3)); ((0,3),(1,2))] in
  sum ((λ pair, count (opponents games) pair) <$> all_pairs 4)
  = 4 * Z.of_nat (length games)
  ∧ (∀ a b, b ≤ a → count (opponents games) (a, b) = 0).
Proof.
  intros games. apply (opponents_total games 4).
  - repeat constructor; apply well_formed_ne; lia.
  - intros p Hp. vm_compute in Hp.
    repeat (apply elem_of_cons in Hp as [->|Hp]; [simpl; lia|]).
    by apply elem_of_nil in Hp.
Defined.

(** X11: a cost of 0 needs [P * (P - 1) / 4] games: when the games
    have four different players below [P] each and
    [opp_difference games (all_pairs P) 2] is 0, then 4 times their number
    is [P * (P - 1)].  So the cost is never 0 when neither [P] nor [P - 1]
    is a multiple of 4. *)
Theorem opp_difference_zero_games (games : list Game) (P : Z) :
  0 ≤ P → Forall well_formed games →
  (∀ p, p ∈ pairs_of games → 0 ≤ p.1 ∧ p.1 < P ∧ 0 ≤ p.2 ∧ p.2 < P) →
  opp_difference games (all_pairs P) 2 = 0 →
  4 * Z.of_nat (length games) = P * (P - 1)
  ∧ (P `mod` 4 = 0 ∨ (P - 1) `mod` 4 = 0).
Proof.
  intros HP Hwf Hrange Hzero.
  assert (4 * Z.of_nat (length games) = P * (P - 1)) as Hlen.
  { unfold opp_difference in Hzero. apply sum_zero in Hzero; last first.
    { apply Forall_fmap, Forall_forall. intros pair _. apply abs_cube_nonneg. }
    rewrite Forall_fmap, Forall_forall in Hzero.
    pose proof (opponents_sum games P Hwf Hrange) as Htotal.
    rewrite (sum_fmap_const _ 2) in Htotal.
    - rewrite <-double_length_all_pairs by done. lia.
    - intros pair Hpair. specialize (Hzero pair Hpair). simpl in Hzero.
      apply abs_cube_zero in Hzero. lia. }
  split; [done|].
  destruct (games_arithmetic P (Z.of_nat (length games)) 0) as [_ Hd]; [lia..|].
  by apply Hd.
Qed.

Lemma opp_difference_zero_games_witness :
  let games := [((0,1),(2,3)); ((0,2),(1,4)); ((0,3),(2,4));
                ((0,4),(1,3)); ((1,2),(3,4))] in
  4 * Z.of_nat (length games) = 5 * (5 - 1)
  ∧ (5 `mod` 4 = 0 ∨ (5 - 1) `mod` 4 = 0).
Proof.
  intros games. apply (opp_difference_zero_games games 5); [lia| | |].
  - repeat constructor; apply well_formed_ne; lia.
  - intros p Hp. vm_compute in Hp.
    repeat (apply elem_of_cons in Hp as [->|Hp]; [simpl; lia|]).
    by apply elem_of_nil in Hp.
  - vm_compute. reflexivity.
Defined.

(** ** The schedule that [pickleball] returns *)

Section valid.
Context {rng : Type} {R : Random rng}.
Implicit Types (st : state rng) (g : rng).

Lemma keep_swap_true_players courts st games i j diff2 :
  keep_swap courts st games i j diff2 = Ret true →
  ∃ Gi Gj, games !! i = Some Gi ∧ games !! j = Some Gj
           ∧ size (players_game Gi) = 4%nat
           ∧ size (players_game Gj) = 4%nat.
Proof.
  unfold keep_swap. case_bool_decide; [|done].
  intros (s & _ & Hkeep)%bind_Ret. case_bool_decide; [|done].
  apply bind_Ret in Hkeep as (Gi & HGi%getitem_Ret & Hkeep).
  case_bool_decide as Hi; [|done].
  apply bind_Ret in Hkeep as (Gj & HGj%getitem_Ret & [= Hj]).
  apply bool_decide_eq_true in Hj. by exists Gi, Gj.
Qed.

(** A swap is kept only if the two games have four players each. *)
Lemma trial_well_formed courts pairs st st' :
  trial courts pairs st = Ret st' →
  Forall well_formed (games st) → Forall well_formed (games st').
Proof.
  unfold trial.
  intros ([idx g] & Hidx & ([[i j] [a b]] & Hunpack & (games1 & Hswap
    & (keep & Hkeep & Hst')%bind_Ret)%bind_Ret)%bind_Ret)%bind_Ret Hwf.
  destruct keep.
  - apply keep_swap_true_players in Hkeep as (Gi & Gj & HGi & HGj & Hi & Hj).
    apply bind_Ret in Hst' as (s & _ & [= <-]). cbn [games].
    apply Forall_lookup. intros k G HG.
    destruct (decide (k = i)) as [->|Hki];
      [|destruct (decide (k = j)) as [->|Hkj]].
    + rewrite HGi in HG. injection HG as <-.
      by apply four_players_players_game.
    + rewrite HGj in HG. injection HG as <-.
      by apply four_players_players_game.
    + rewrite (swap_frame _ _ _ _ _ _ Hswap k Hki Hkj) in HG.
      by eapply (proj1 (Forall_lookup _ _) Hwf).
  - apply swap_swap in Hswap. rewrite Hswap, Ret_bind in Hst'.
    by injection Hst' as <-.
Qed.

Lemma trials_well_formed k courts pairs st st' :
  trials k courts pairs st = Ret st' →
  Forall well_formed (games st) → Forall well_formed (games st').
Proof.
  revert st. induction k as [|k IH]; intros st; simpl.
  - by intros [= <-].
  - intros (st1 & Htrial & Hrest)%bind_Ret Hwf.
    eapply IH; [done|]. by eapply trial_well_formed.
Qed.

Lemma after_trials_valid P courts k g st :
  after_trials P courts k g = Ret st →
  Forall well_formed (games st)
  ∧ NoDup (pairs_of (games st))
  ∧ (∀ p, p ∈ pairs_of (games st) → p ∈ all_pairs P)
  ∧ (4 ≤ P → Z.of_nat (length (games st)) = P * (P - 1) / 4).
Proof.
  intros Hst. pose proof Hst as Hst'.
  apply after_trials_Ret in Hst'
    as (games0 & sched0 & Hgames0 & _ & _ & _ & _ & Hpairs).
  apply bind_Ret in Hst as (st0 & (Hgames & _)%initial_Ret & Htrials).
  rewrite Hgames0 in Hgames. injection Hgames as ->.
  destruct (make_games_distinct _ _ Hgames0) as (Hwf & Hnd & Hin & _).
  split_and!.
  - by eapply trials_well_formed.
  - by rewrite Hpairs.
  - intros p. rewrite Hpairs. apply Hin.
  - intros HP.
    destruct (make_games_all_pairs_spec P HP) as (games1 & Hgames1 & _ & Hlen & _).
    rewrite Hgames0 in Hgames1. injection Hgames1 as <-. rewrite <-Hlen.
    apply Permutation_length in Hpairs. rewrite !length_pairs_of in Hpairs. lia.
Qed.
End valid.

(** X12: the schedule that [pickleball] returns is a valid one.  Every
    game has four different players; every pair of partners is a pair of
    [all_pairs P] and partners in one game only.  With [courts ≥ 1] every
    round has between 1 and [courts] games and no player twice.  For
    [P ≥ 4] there are [P * (P - 1) / 4] games, and their cost is above 0
    when neither [P] nor [P - 1] is a multiple of 4. *)
Theorem pickleball_schedule_valid {rng} {R : Random rng}
    (P courts N : Z) (g : rng) (s : Schedule) :
  pickleball P courts N g = Ret s →
  Forall (Forall well_formed) s
  ∧ NoDup (pairs_of (concat s))
  ∧ (∀ p, p ∈ pairs_of (concat s) → p ∈ all_pairs P)
  ∧ (1 ≤ courts →
     Forall (λ round, round ≠ [] ∧ Z.of_nat (length round) ≤ courts
                      ∧ player_disjoint round) s)
  ∧ (4 ≤ P → Z.of_nat (length (concat s)) = P * (P - 1) / 4)
  ∧ (4 ≤ P → ¬ (P `mod` 4 = 0 ∨ (P - 1) `mod` 4 = 0) →
     0 < opp_difference (concat s) (all_pairs P) 2).
Proof.
  intros (st & Hst & ->)%pickleball_Ret.
  destruct (after_trials_valid _ _ _ _ _ Hst) as (Hwf & Hnd & Hin & Hlen).
  apply after_trials_Ret in Hst as (_ & _ & _ & _ & [_ Hsched] & _).
  destruct (schedule_objects_Ret _ _ _ Hsched) as (Hs & _ & Hperm).
  set (s := contents (games st) (sched st)) in *.
  assert (Forall well_formed (concat s)) as Hwf' by (by rewrite Hperm).
  assert (∀ p, p ∈ pairs_of (concat s) → p ∈ all_pairs P) as Hin'.
  { intros p. rewrite Hperm. apply Hin. }
  split_and!.
  - by apply Forall_concat.
  - by rewrite Hperm.
  - done.
  - intros Hcourts.
    destruct (schedule_on_spec id courts (games st) Hcourts)
      as (rounds & Hrounds & _ & Hok).
    unfold schedule in Hs. rewrite Hs in Hrounds. injection Hrounds as <-.
    eapply Forall_impl; [exact Hok|]. intros round (? & ? & Hdisj). simpl.
    by rewrite list_fmap_id in Hdisj.
  - intros HP. rewrite Hperm. by apply Hlen.
  - intros HP Hmod.
    pose proof (opp_difference_nonneg (concat s) (all_pairs P) 2) as Hnn.
    destruct (decide (opp_difference (concat s) (all_pairs P) 2 = 0))
      as [Hzero|?]; [|lia].
    destruct Hmod.
    assert (∀ p, p ∈ pairs_of (concat s)
              → 0 ≤ p.1 ∧ p.1 < P ∧ 0 ≤ p.2 ∧ p.2 < P) as Hrange.
    { intros [a b] Hp%Hin'%elem_of_all_pairs. simpl. lia. }
    pose proof (opponents_sum (concat s) P Hwf' Hrange) as Htotal.
    unfold opp_difference in Hzero. apply sum_zero in Hzero; last first.
    { apply Forall_fmap, Forall_forall. intros pair _. apply abs_cube_nonneg. }
    rewrite Forall_fmap, Forall_forall in Hzero.
    rewrite (sum_fmap_const _ 2) in Htotal; last first.
    { intros pair Hpair. specialize (Hzero pair Hpair). simpl in Hzero.
      apply abs_cube_zero in Hzero. lia. }
    pose proof (double_length_all_pairs P ltac:(lia)) as Hall.
    destruct (games_arithmetic P (Z.of_nat (length (concat s))) 0)
      as [_ Hd]; [lia|lia|]. by apply Hd.
Qed.

Lemma pickleball_schedule_valid_witness :
  ∃ s,
    pickleball 6 2 2 ([0; 3; 1; 2; 2; 3]%nat : Tape.rng) = Ret s
    ∧ Forall (Forall well_formed) s
    ∧ NoDup (pairs_of (concat s))
    ∧ (∀ p, p ∈ pairs_of (concat s) → p ∈ all_pairs 6)
    ∧ (1 ≤ 2 →
       Forall (λ round, round ≠ [] ∧ Z.of_nat (length round) ≤ 2
                        ∧ player_disjoint round) s)
    ∧ (4 ≤ 6 → Z.of_nat (length (concat s)) = 6 * (6 - 1) / 4)
    ∧ (4 ≤ 6 → ¬ (6 `mod` 4 = 0 ∨ (6 - 1) `mod` 4 = 0) →
       0 < opp_difference (concat s) (all_pairs 6) 2).
Proof.
  destruct (pickleball 6 2 2 ([0; 3; 1; 2; 2; 3]%nat : Tape.rng))
    as [s| |] eqn:Hs; [|by vm_compute in Hs..].
  exists s. split; [reflexivity|].
  exact (pickleball_schedule_valid 6 2 2 _ s Hs).
Defined.

(** ** The games of a player *)

Lemma games_of_pairs_with (x : Player) (gs : list Game) :
  Forall well_formed gs →
  length (games_of x gs) = length (pairs_with x (pairs_of gs)).
Proof.
  induction 1 as [|g gs Hg Hgs IH]; [done|].
  unfold games_of, pairs_with in *.
  rewrite pairs_of_cons, !filter_cons.
  destruct g as [[a b] [c d]]. apply four_players_spec in Hg.
  cbn [fst snd] in *.
  rewrite !NoDup_cons, !not_elem_of_cons, !elem_of_nil in Hg.
  destruct Hg as ((? & ? & ? & _) & (? & ? & _) & (? & _) & _).
  assert (x ∈ players_game ((a, b), (c, d))
          ↔ (x = a ∨ x = b) ∨ (x = c ∨ x = d)) as Hx.
  { unfold players_game, players_pair. cbn [fst snd]. set_solver. }
  destruct (decide (x = a ∨ x = b)), (decide (x = c ∨ x = d)).
  - lia.
  - rewrite decide_True by (apply Hx; by left). cbn [length]. by rewrite IH.
  - rewrite decide_True by (apply Hx; by right). cbn [length]. by rewrite IH.
  - rewrite decide_False by (rewrite Hx; tauto). by rewrite IH.
Qed.

(** X13: in the schedule that [pickleball] returns for [P ≥ 4]
    players, every player plays [P - 1] games, one with each partner,
    but for the two players of the pair that [make_games] left out, when
    there is one: they play [P - 2] games. *)
Theorem pickleball_games_of_player {rng} {R : Random rng}
    (P courts N : Z) (g : rng) (s : Schedule) :
  4 ≤ P → pickleball P courts N g = Ret s →
  ∃ dropped,
    (length dropped ≤ 1)%nat
    ∧ (dropped = [] ↔ P `mod` 4 = 0 ∨ (P - 1) `mod` 4 = 0)
    ∧ all_pairs P ≡ₚ pairs_of (concat s) ++ dropped
    ∧ ∀ x, 0 ≤ x → x < P →
        Z.of_nat (length (games_of x (concat s)))
        = P - 1 - Z.of_nat (length (pairs_with x dropped)).
Proof.
  intros HP (st & Hst & ->)%pickleball_Ret.
  destruct (after_trials_valid _ _ _ _ _ Hst) as (Hwf & _ & _ & Hlen).
  apply after_trials_Ret in Hst
    as (games0 & _ & Hgames0 & _ & [_ Hsched] & _ & _ & Hpairs).
  destruct (schedule_objects_Ret _ _ _ Hsched) as (_ & _ & Hperm).
  set (s := contents (games st) (sched st)) in *.
  destruct (make_games_sound _ _ (NoDup_all_pairs P) Hgames0)
    as (_ & dropped & Hall & Hdropped).
  rewrite <-Hpairs, <-Hperm in Hall.
  pose proof (double_length_all_pairs P ltac:(lia)) as Hdouble.
  rewrite Hall, length_app, length_pairs_of in Hdouble.
  destruct (games_arithmetic P (Z.of_nat (length (concat s)))
              (Z.of_nat (length dropped))) as [_ Hd]; [lia|lia|].
  exists dropped. split_and!; [lia| |done|].
  - rewrite <-Hd. destruct dropped; [done|]. split; [done|simpl; lia].
  - intros x Hx HxP.
    rewrite games_of_pairs_with by (by rewrite Hperm).
    assert (Z.of_nat (length (pairs_with x (all_pairs P))) = P - 1) as Hx'.
    { unfold pairs_with, all_pairs.
      etrans; [apply f_equal, (combinations2_with (range P) x)|].
      - apply NoDup_seqZ.
      - by apply elem_of_range.
      - unfold range. rewrite length_seqZ. lia. }
    unfold pairs_with in *. rewrite Hall, filter_app, length_app in Hx'.
    unfold Pair in *. lia.
Qed.

Lemma pickleball_games_of_player_witness :
  ∃ s dropped,
    pickleball 6 2 2 ([0; 3; 1; 2; 2; 3]%nat : Tape.rng) = Ret s
    ∧ (length dropped ≤ 1)%nat
    ∧ (dropped = [] ↔ 6 `mod` 4 = 0 ∨ (6 - 1) `mod` 4 = 0)
    ∧ all_pairs 6 ≡ₚ pairs_of (concat s) ++ dropped
    ∧ ∀ x, 0 ≤ x → x < 6 →
        Z.of_nat (length (games_of x (concat s)))
        = 6 - 1 - Z.of_nat (length (pairs_with x dropped)).
Proof.
  destruct (pickleball 6 2 2 ([0; 3; 1; 2; 2; 3]%nat : Tape.rng))
    as [s| |] eqn:Hs; [|by vm_compute in Hs..].
  destruct (pickleball_games_of_player 6 2 2 _ s ltac:(lia) Hs)
    as (dropped & H).
  exists s, dropped. exact (conj eq_refl H).
Defined.

(** ** Scheduling a schedule again *)

Section replay.
Context {A : Type} (val : A → Game).
Implicit Types (round games rest todo : list A) (courts : Z).

Lemma fill_round_refused courts rest round games :
  Forall (λ g, ¬ can_place val courts round g) rest →
  fill_round val courts rest round games = Ret (round, games).
Proof.
  induction 1 as [|g rest Hg _ IH]; [done|].
  rewrite fill_round_cons. by destruct (can_place val courts round g).
Qed.

(** A pass of the [for] loop over the games [todo] of a round, followed
    by games that the round refuses, places [todo] and nothing else. *)
Lemma fill_round_replay courts todo rest round :
  Z.of_nat (length (round ++ todo)) ≤ courts →
  player_disjoint (val <$> round ++ todo) →
  Forall (λ g, ¬ can_place val courts (round ++ todo) g) rest →
  fill_round val courts (todo ++ rest) round (todo ++ rest)
  = Ret (round ++ todo, rest).
Proof.
  revert round. induction todo as [|g todo IH]; intros round Hlen Hdisj Hrest.
  { rewrite app_nil_r in *. by apply fill_round_refused. }
  cbn [app]. rewrite fill_round_cons.
  assert (can_place val courts round g) as ->%Is_true_true.
  { unfold can_place. rewrite andb_True, bool_decide_spec, disjoint_spec.
    split; [rewrite length_app in Hlen; cbn [length] in Hlen; lia|].
    intros x Hx Hxg. unfold players_round in Hx.
    apply elem_of_union_list in Hx as (X & HX & Hx).
    apply list_elem_of_fmap in HX as (g' & -> & Hg').
    apply list_elem_of_lookup in Hg' as [i Hi].
    pose proof (lookup_lt_Some _ _ _ Hi) as Hlt. rewrite length_fmap in Hlt.
    refine (Hdisj i (length round) g' (val g) _ _ _ x Hx Hxg); [lia| |].
    - rewrite fmap_app. by apply lookup_app_l_Some.
    - rewrite fmap_app, lookup_app_r by (rewrite length_fmap; lia).
      by rewrite length_fmap, Nat.sub_diag. }
  cbn [list_remove]. rewrite decide_True by done.
  rewrite (cons_middle g round todo), (assoc (++)) in Hlen, Hdisj, Hrest.
  rewrite (IH (round ++ [g]) Hlen Hdisj Hrest).
  by rewrite <-(assoc (++)).
Qed.

Lemma schedule_loop_replay fuel courts (rounds sched : list (list A)) :
  Forall (round_ok val courts) rounds → first_fit val courts rounds →
  (length rounds ≤ fuel)%nat →
  schedule_loop val fuel courts (concat rounds) sched = Ret (sched ++ rounds).
Proof.
  intros Hok. revert fuel sched.
  induction Hok as [|round rounds (Hne & Hlen & Hdisj) _ IH];
    intros fuel sched Hff Hfuel.
  { rewrite app_nil_r. by destruct fuel. }
  destruct Hff as [Hrefused Hff].
  destruct fuel as [|fuel]; [simpl in Hfuel; lia|].
  destruct round as [|g round]; [done|].
  cbn [concat app schedule_loop].
  change (g :: round ++ concat rounds) with ((g :: round) ++ concat rounds).
  rewrite (fill_round_replay courts (g :: round) (concat rounds) [])
    by done.
  cbn [app]. rewrite Ret_bind, IH by (done || simpl in Hfuel; lia).
  by rewrite <-(assoc (++)).
Qed.
End replay.

(** X14: scheduling the games of a schedule again, in the order of the
    schedule, gives the same schedule: the rounds that [schedule]
    returns are a fixed point of it. *)
Theorem schedule_again (games : list Game) (courts : Z) (rounds : Schedule) :
  schedule games courts = Ret rounds →
  schedule (concat rounds) courts = Ret rounds.
Proof.
  intros Hrounds. destruct (decide (1 ≤ courts)) as [Hcourts|Hcourts].
  - destruct (schedule_on_spec id courts games Hcourts)
      as (rounds' & Hrounds' & _ & Hok).
    unfold schedule in Hrounds. rewrite Hrounds in Hrounds'.
    injection Hrounds' as <-.
    apply schedule_loop_first_fit in Hrounds
      as (rounds' & Heq & _ & Hff & _).
    cbn [app] in Heq. subst rounds'.
    apply (schedule_loop_replay id _ courts rounds []); [done..|].
    by destruct (rounds_length id courts rounds Hok).
  - destruct games as [|g games]; [by injection Hrounds as <-|].
    unfold schedule in Hrounds.
    by rewrite schedule_on_diverges in Hrounds by (done || lia).
Qed.

Lemma schedule_again_witness :
  let games := [((0,1),(2,3)); ((0,2),(1,3)); ((4,5),(6,7)); ((0,3),(1,2))] in
  ∃ rounds,
    schedule games 2 = Ret rounds ∧ schedule (concat rounds) 2 = Ret rounds.
Proof.
  intros games. eexists. split; [vm_compute; reflexivity|].
  apply (schedule_again games 2). vm_compute. reflexivity.
Defined.

(** ** What [opponents] counts *)

Lemma pairing_eq (x y a b : Player) :
  pairing x y = pairing a b ↔ (x = a ∧ y = b) ∨ (x = b ∧ y = a).
Proof.
  unfold pairing. split.
  - intros [= H1 H2]. lia.
  - intros [[-> ->]|[-> ->]]; f_equal; lia.
Qed.

(** The four oppositions of a game of four different players count
    [a] against [b] once, when they play against each other in it. *)
Lemma oppositions_across (a b a1 b1 c d : Player) :
  a1 ≠ b1 → a1 ≠ c → a1 ≠ d → b1 ≠ c → b1 ≠ d → c ≠ d →
  length (filter (λ k, k = pairing a b)
            [pairing a1 c; pairing a1 d; pairing b1 c; pairing b1 d])
  = if decide (((a = a1 ∨ a = b1) ∧ (b = c ∨ b = d))
               ∨ ((b = a1 ∨ b = b1) ∧ (a = c ∨ a = d)))
    then 1%nat else 0%nat.
Proof.
  intros. rewrite !filter_cons, filter_nil.
  destruct (decide (((a = a1 ∨ a = b1) ∧ (b = c ∨ b = d))
                    ∨ ((b = a1 ∨ b = b1) ∧ (a = c ∨ a = d))))
    as [Hacross|Hn].
  - destruct Hacross as [[[->| ->] [->| ->]]|[[->| ->] [->| ->]]];
      repeat match goal with
      | |- context [decide (pairing ?x ?y = pairing ?u ?v)] =>
          let H := fresh in
          destruct (decide (pairing x y = pairing u v)) as [H|H];
          rewrite pairing_eq in H;
          try solve [exfalso; destruct H as [[??]|[??]]; congruence];
          try solve [destruct H; first [by left | by right]]
      end; done.
  - repeat match goal with
    | |- context [decide (pairing ?x ?y = pairing a b)] =>
        let H := fresh in
        destruct (decide (pairing x y = pairing a b)) as [H|H];
        [rewrite pairing_eq in H; destruct Hn; clear -H; naive_solver|]
    end; done.
Qed.

(** X15: the tally of [opponents] at [pairing a b] is the number of
    games in which [a] and [b] play against each other, on whichever
    side of the net and in whichever order they are given, when every
    game has four different players. *)
Theorem opponents_counts (games : list Game) (a b : Player) :
  Forall well_formed games →
  count (opponents games) (pairing a b)
  = Z.of_nat (length (games_across a b games)).
Proof.
  intros Hwf. unfold opponents. rewrite count_Counter. f_equal.
  induction Hwf as [|g games Hg _ IH]; [done|].
  unfold oppositions, games_across in *.
  rewrite bind_cons, filter_app, length_app, IH, filter_cons. clear IH.
  destruct g as [[a1 b1] [c d]]. apply four_players_spec in Hg.
  cbn [fst snd] in *.
  rewrite !NoDup_cons, !not_elem_of_cons, !elem_of_nil in Hg.
  destruct Hg as ((? & ? & ? & _) & (? & ? & _) & (? & _) & _).
  cbn [mbind list_bind app]. rewrite oppositions_across by done.
  by destruct (decide _).
Qed.

Lemma opponents_counts_witness :
  let games := [((0,1),(2,3)); ((0,2),(1,3)); ((0,3),(1,2))] in
  count (opponents games) (pairing 2 0) = Z.of_nat (length (games_across 2 0 games)).
Proof.
  intros games. apply (opponents_counts games 2 0).
  repeat constructor; apply well_formed_ne; lia.
Defined.

(** ** The opponents of a player *)

Lemma elem_of_players_game (x a b c d : Player) :
  x ∈ players_game ((a, b), (c, d)) ↔ (x = a ∨ x = b) ∨ (x = c ∨ x = d).
Proof. unfold players_game, players_pair. cbn [fst snd]. set_solver. Qed.

Lemma sum_indicator_elem {X} `{EqDecision X} (l : list X) (k : X) :
  NoDup l → k ∈ l →
  sum ((λ x, if decide (x = k) then 1 else 0) <$> l) = 1.
Proof.
  induction 1 as [|y l Hy Hnd IH]; [by intros ?%elem_of_nil|].
  intros Hk. rewrite fmap_cons, sum_cons.
  destruct (decide (y = k)) as [->|Hne].
  - rewrite (sum_fmap_const _ 0); [lia|].
    intros x Hx. rewrite decide_False; [done|]. by intros ->.
  - rewrite IH; [lia|]. apply elem_of_cons in Hk as [?|?]; [|done].
    by destruct Hne.
Qed.

(** Among the players of [l], a player has the two opponents [u] and
    [v]. *)
Lemma sum_two_opponents (Q : Player → Prop) `{∀ x, Decision (Q x)}
    (l : list Player) (u v : Player) :
  NoDup l → u ∈ l → v ∈ l → u ≠ v → (∀ x, Q x ↔ x = u ∨ x = v) →
  sum ((λ x, Z.of_nat (if decide (Q x) then 1 else 0)) <$> l) = 2.
Proof.
  intros Hnd Hu Hv Huv HQ.
  trans (sum ((λ x, if decide (x = u) then 1 else 0) <$> l)
         + sum ((λ x, if decide (x = v) then 1 else 0) <$> l));
    [|by rewrite !sum_indicator_elem].
  rewrite <-sum_fmap_add. f_equal. apply list_fmap_ext. intros _ x _. simpl.
  destruct (decide (Q x)) as [[-> | ->]%HQ|Hn].
  - by rewrite decide_True, decide_False.
  - by rewrite decide_False, decide_True.
  - rewrite !decide_False; [done|..]; intros ->; apply Hn, HQ; auto.
Qed.

(** The oppositions of one game, added up over the opponents of [row]:
    2 when [row] plays in the game, and 0 otherwise. *)
Lemma oppositions_row (row a1 b1 c d : Player) (l : list Player) :
  NoDup l → a1 ∈ l → b1 ∈ l → c ∈ l → d ∈ l →
  a1 ≠ b1 → a1 ≠ c → a1 ≠ d → b1 ≠ c → b1 ≠ d → c ≠ d →
  sum ((λ col, Z.of_nat (length (filter (λ k, k = pairing row col)
          [pairing a1 c; pairing a1 d; pairing b1 c; pairing b1 d]))) <$> l)
  = if decide (row ∈ players_game ((a1, b1), (c, d))) then 2 else 0.
Proof.
  intros Hnd Ha1 Hb1 Hc Hd ? ? ? ? ? ?.
  etrans.
  { apply (f_equal sum), list_fmap_ext. intros _ col _.
    by rewrite oppositions_across. }
  destruct (decide (row ∈ _)) as [Hrow|Hrow];
    rewrite elem_of_players_game in Hrow.
  - destruct Hrow as [Hrow|Hrow].
    + apply (sum_two_opponents _ l c d); [done..|].
      intros x. destruct Hrow as [-> | ->]; naive_solver.
    + apply (sum_two_opponents _ l a1 b1); [done..|].
      intros x. destruct Hrow as [-> | ->]; naive_solver.
  - rewrite (sum_fmap_const _ 0); [lia|]. intros x _.
    rewrite decide_False; [done|]. naive_solver.
Qed.

(** X16: the tallies of [opponents] for a player against every player
    below [P] add up to twice the number of games of the player, when
    the games have four different players below [P] each: a player has
    two opponents in each game.  These are the sums that [report] halves
    for its column of games. *)
Theorem opponents_row (games : list Game) (P : Z) (row : Player) :
  Forall well_formed games →
  (∀ p, p ∈ pairs_of games → 0 ≤ p.1 ∧ p.1 < P ∧ 0 ≤ p.2 ∧ p.2 < P) →
  sum ((λ col, count (opponents games) (pairing row col)) <$> range P)
  = 2 * Z.of_nat (length (games_of row games)).
Proof.
  induction 1 as [|g games Hg _ IH]; intros Hrange.
  { rewrite (sum_fmap_const _ 0); [simpl; lia|]. intros col _.
    apply (count_Counter_absent []), not_elem_of_nil. }
  trans (sum ((λ col, Z.of_nat (length (filter (λ k, k = pairing row col)
                 [pairing g.1.1 g.2.1; pairing g.1.1 g.2.2;
                  pairing g.1.2 g.2.1; pairing g.1.2 g.2.2]))) <$> range P)
         + sum ((λ col, count (opponents games) (pairing row col)) <$> range P)).
  { rewrite <-sum_fmap_add. f_equal. apply list_fmap_ext. intros _ col _.
    cbn beta. unfold opponents. rewrite !count_Counter. unfold oppositions.
    rewrite bind_cons, filter_app, length_app. apply Nat2Z.inj_add. }
  rewrite IH by (intros p Hp; apply Hrange; rewrite pairs_of_cons;
                 by do 2 right).
  pose proof (Hrange g.1) as H1. pose proof (Hrange g.2) as H2.
  rewrite pairs_of_cons in H1, H2.
  specialize (H1 ltac:(by left)).
  specialize (H2 ltac:(by right; left)).
  destruct g as [[a1 b1] [c d]]. apply four_players_spec in Hg.
  cbn [fst snd] in *.
  rewrite !NoDup_cons, !not_elem_of_cons, !elem_of_nil in Hg.
  destruct Hg as ((? & ? & ? & _) & (? & ? & _) & (? & _) & _).
  rewrite oppositions_row
    by (done || apply NoDup_seqZ || (apply elem_of_range; lia)).
  unfold games_of. rewrite filter_cons.
  destruct (decide (row ∈ _)); cbn [length]; lia.
Qed.

Lemma opponents_row_witness :
  let games := [((0,1),(2,3)); ((0,2),(1,4)); ((0,3),(2,4))] in
  sum ((λ col, count (opponents games) (pairing 1 col)) <$> range 5)
  = 2 * Z.of_nat (length (games_of 1 games)).
Proof.
  intros games. apply (opponents_row games 5 1).
  - repeat constructor; apply well_formed_ne; lia.
  - intros p Hp. vm_compute in Hp.
    repeat (apply elem_of_cons in Hp as [->|Hp]; [simpl; lia|]).
    by apply elem_of_nil in Hp.
Defined.
